(** * Live Share SDK: event ordering, shared clock and presence roster

A shallow embedding of three pieces of the SDK and the properties
they are specified to have:

- [LiveEvent.isNewer], the rule deciding whether a received event
  replaces the one currently held;
- [SharedClock], the clock that estimates the server time offset and
  hands out timestamps;
- [LivePresence], the roster of presence users.

JavaScript numbers that carry millisecond timestamps are integers in
the source and are modelled in [Z]; the readings of [performance.now()]
and the expiration period in seconds are fractional and are modelled
in [Q], with the rounding subtraction of the host taken as given where
the source subtracts them. Promises are modelled by their outcome: an
[async] method that throws is a method that returns [Err], and each
call runs to its end before the next one starts. The collation behind
[String.prototype.localeCompare] is the host's and is taken as given. *)

From Stdlib Require Import ZArith QArith Qround Lia Bool List String Ascii.
From Stdlib Require Import Sorted Permutation.
Import ListNotations.

Local Open Scope string_scope.
Local Open Scope list_scope.
Local Open Scope Z_scope.

(** ** Thrown errors *)

Inductive result (A : Type) : Type :=
| Ok (a : A)
| Err (message : string).

Arguments Ok {A} a.
Arguments Err {A} message.

Definition bind {A B : Type} (r : result A) (k : A -> result B) : result B :=
  match r with
  | Ok a => k a
  | Err m => Err m
  end.

Notation "x <- r ;; k" := (bind r (fun x => k))
  (at level 61, r at next level, right associativity).

Definition throws {A : Type} (r : result A) : Prop :=
  exists m, r = Err m.

(** ** String.prototype.localeCompare

The comparison is the host's: which strings sort before which, and
which different strings collate equal, depends on its locale data. It
is taken as given. The result is a number whose sign is all the callers
look at. *)

Class Collation : Type := {
  localeCompare : string -> string -> Z
}.

(** What is assumed of a collation where the order matters: comparing
    the other way round gives the opposite sign, and "does not sort
    before" is transitive. Strings then fall into classes that collate
    equal, and the classes are totally ordered; different strings may
    share a class. *)
Class CollationLaws `{Collation} : Prop := {
  localeCompare_swap :
    forall a b, localeCompare a b > 0 <-> localeCompare b a < 0;
  localeCompare_ge_trans :
    forall a b c,
      localeCompare a b >= 0 -> localeCompare b c >= 0 ->
      localeCompare a c >= 0
}.

(** The order on code units, a collation that tells all different
    strings apart. It is the host of the concrete examples. *)
Definition compareCodeUnits (a b : string) : Z :=
  match String.compare a b with
  | Lt => -1
  | Eq => 0
  | Gt => 1
  end.

#[export] Instance codeUnits : Collation := {
  localeCompare := compareCodeUnits
}.

(** ** LiveEvent *)

Module LiveEvent.

(** [IClientTimestamp]: [clientId] is an optional property. *)
Record IClientTimestamp : Type := mkClientTimestamp {
  timestamp : Z;
  clientId : option string
}.

(** [x || ""] on an optional string. *)
Definition orEmpty (s : option string) : string :=
  match s with
  | Some x => x
  | None => ""
  end.

Section Ordering.

Context `{Collation}.

Definition isNewer (current : option IClientTimestamp)
           (received : IClientTimestamp) (debouncePeriod : Z) : bool :=
  match current with
  | Some current =>
      if timestamp current =? timestamp received then
        let cmp := localeCompare (orEmpty (clientId current))
                                 (orEmpty (clientId received)) in
        if cmp <=? 0 then false else true
      else if timestamp current >? timestamp received then
        let delta := timestamp current - timestamp received in
        if delta >? debouncePeriod then false else true
      else
        let delta := timestamp received - timestamp current in
        if delta <? debouncePeriod then false else true
  | None => true
  end.

(** The replacement rule a replica runs on each delivery. *)
Definition deliver (debouncePeriod : Z) (current : option IClientTimestamp)
           (received : IClientTimestamp) : option IClientTimestamp :=
  if isNewer current received debouncePeriod then Some received else current.

Definition replica (debouncePeriod : Z) (deliveries : list IClientTimestamp)
  : option IClientTimestamp :=
  fold_left (deliver debouncePeriod) deliveries None.

(** Two records [isNewer] cannot tell apart: the same timestamp, and
    client ids that collate equal. *)
Definition sameKey (a b : IClientTimestamp) : Prop :=
  timestamp a = timestamp b /\
  localeCompare (orEmpty (clientId a)) (orEmpty (clientId b)) = 0.


End Ordering.

(** *** The [LiveEvent] object

    [LiveEventTarget] and [LiveEventScope] are not among the sources: a
    target is represented by what [initialize] constructs it from, and its
    [sendEvent] is taken as given. *)

Section Instance.

Variables (Role TEvent PartialEvent : Type).

Record LiveEventTarget : Type := mkLiveEventTarget {
  allowedRoles : option (list Role);
  eventName : string
}.

Variable targetSendEvent :
  LiveEventTarget -> option PartialEvent -> result TEvent.

Record t : Type := mkLiveEvent {
  _eventTarget : option LiveEventTarget
}.

Definition isInitialized (o : t) : bool :=
  match _eventTarget o with
  | Some _ => true
  | None => false
  end.

Definition isStarted (o : t) : bool := isInitialized o.

Definition initialize (roles : option (list Role)) (o : t) : result t :=
  match _eventTarget o with
  | Some _ => Err "LiveEvent already started."
  | None =>
      Ok {| _eventTarget :=
              Some {| allowedRoles := roles; eventName := "event" |} |}
  end.

Definition sendEvent (evt : option PartialEvent) (o : t) : result TEvent :=
  match _eventTarget o with
  | None => Err "LiveEvent not started."
  | Some target => targetSendEvent target evt
  end.

End Instance.

Arguments mkLiveEventTarget {Role} allowedRoles eventName.
Arguments allowedRoles {Role} l.
Arguments eventName {Role} l.
Arguments mkLiveEvent {Role} _eventTarget.
Arguments _eventTarget {Role} t.
Arguments isInitialized {Role} o.
Arguments isStarted {Role} o.
Arguments initialize {Role} roles o.
Arguments sendEvent {Role TEvent PartialEvent} targetSendEvent evt o.

End LiveEvent.

(** ** SharedClock *)

Module SharedClock.

Definition SHARED_CLOCK_IMPROVE_ACCURACY_INTERVAL : Z := 5 * 1000.
Definition SHARED_CLOCK_IMPROVE_ACCURACY_ATTEMPTS : Z := 5.

Record IServerTimeOffset : Type := mkServerTimeOffset {
  offset : Z;
  serverTimeInUtc : Z;
  localTimeInUtc : Z;
  requestLatency : Q
}.

(** [_syncTimer] stands for the timeout that is pending, if one is, and
    holds its delay. *)
Record t : Type := mkClock {
  _serverTime : option IServerTimeOffset;
  _syncTimer : option Z;
  _retries : Z;
  _lastTimeSent : Z
}.

(** A clock as the constructor leaves it. *)
Definition create : t :=
  {| _serverTime := None; _syncTimer := None;
     _retries := 0; _lastTimeSent := 0 |}.

Definition isRunning (c : t) : bool :=
  match _serverTime c with
  | Some _ => true
  | None => false
  end.

(** [now] is the reading of [new Date().getTime()]. *)
Definition getTimestamp (now : Z) (c : t) : result (Z * t) :=
  match _serverTime c with
  | None =>
      Err "SharedClock: can't call getTimestamp() before calling initialize()."
  | Some serverTime =>
      let v := Z.max (now + offset serverTime) (_lastTimeSent c + 1) in
      Ok (v, {| _serverTime := _serverTime c; _syncTimer := _syncTimer c;
                _retries := _retries c; _lastTimeSent := v |})
  end.

Definition getMaxTimestampError (c : t) : result Z :=
  match _serverTime c with
  | None =>
      Err "SharedClock: can't call getTimestamp() before calling initialize()."
  | Some serverTime => Ok (Qfloor (requestLatency serverTime / 2))
  end.

Definition stop (c : t) : t :=
  {| _serverTime := None; _syncTimer := None;
     _retries := 0; _lastTimeSent := _lastTimeSent c |}.

(** One answered probe: [startCall] and [endCall] are the readings of
    [performance.now()] around the request, [ntpTimeInUTC] the answer
    of the host and [now] the local time at receipt. [subtract] is the
    subtraction of the host's numbers, which rounds its result. *)
Definition getSessionTimeOffset (subtract : Q -> Q -> Q)
           (startCall endCall : Q)
           (ntpTimeInUTC now : Z) : IServerTimeOffset :=
  let latency := subtract endCall startCall in
  let serverTime := ntpTimeInUTC + Qfloor (latency / 2) in
  {| serverTimeInUtc := serverTime;
     localTimeInUtc := now;
     requestLatency := latency;
     offset := serverTime - now |}.

Definition improvesOn (probe : IServerTimeOffset) (c : t) : bool :=
  match _serverTime c with
  | None => true
  | Some best =>
      if Qlt_le_dec (requestLatency probe) (requestLatency best)
      then true else false
  end.

(** [improveAccuracy], given the probe its [await] resolved to. *)
Definition improveAccuracy (probe : IServerTimeOffset) (c : t) : t :=
  let c1 :=
    if improvesOn probe c then
      {| _serverTime := Some probe; _syncTimer := _syncTimer c;
         _retries := 0; _lastTimeSent := _lastTimeSent c |}
    else
      {| _serverTime := _serverTime c; _syncTimer := _syncTimer c;
         _retries := _retries c + 1; _lastTimeSent := _lastTimeSent c |} in
  {| _serverTime := _serverTime c1;
     _syncTimer :=
       if _retries c1 <=? SHARED_CLOCK_IMPROVE_ACCURACY_ATTEMPTS
       then Some SHARED_CLOCK_IMPROVE_ACCURACY_INTERVAL
       else None;
     _retries := _retries c1;
     _lastTimeSent := _lastTimeSent c1 |}.

Definition start (probe : IServerTimeOffset) (c : t) : t :=
  improveAccuracy probe (stop c).

(** The timeout callback when the host answers with [probe]: it runs
    only while a timeout is pending. *)
Definition timerFires (probe : IServerTimeOffset) (c : t) : t :=
  match _syncTimer c with
  | Some _ => improveAccuracy probe c
  | None => c
  end.

(** The timeout callback when the request to the host fails: the
    [await] throws, so the estimate and the retries stay as they are and
    no timeout is set again. *)
Definition timerFiresRejected (c : t) : t :=
  match _syncTimer c with
  | Some _ =>
      {| _serverTime := _serverTime c; _syncTimer := None;
         _retries := _retries c; _lastTimeSent := _lastTimeSent c |}
  | None => c
  end.

(** [start] when the request to the host fails: [stop] has run and the
    [await] throws. *)
Definition startRejected (c : t) : t := stop c.

(** The timer fires once for each probe of [probes], in order. *)
Definition feed (probes : list IServerTimeOffset) (c : t) : t :=
  fold_left (fun c probe => timerFires probe c) probes c.

(** The state of a clock that holds the estimate [best] and has counted
    [r] probes in a row that did not improve on it. *)
Definition stalled (best : IServerTimeOffset) (r : Z) (c : t) : Prop :=
  _serverTime c = Some best /\
  _retries c = r /\
  _syncTimer c =
    (if r <=? SHARED_CLOCK_IMPROVE_ACCURACY_ATTEMPTS
     then Some SHARED_CLOCK_IMPROVE_ACCURACY_INTERVAL else None).

(** What can happen to a clock between two reads. *)
Inductive call : Type :=
| GetTimestamp (now : Z)
| TimerFires (probe : IServerTimeOffset)
| Start (probe : IServerTimeOffset)
| Stop
| TimerFiresRejected
| StartRejected.

Definition isRead (o : call) : bool :=
  match o with
  | GetTimestamp _ => true
  | _ => false
  end.

(** The calls that leave a running clock running. *)
Definition keepsRunning (o : call) : bool :=
  match o with
  | Stop | StartRejected => false
  | _ => true
  end.

(** Runs the calls in order, each to its end before the next; the first
    component lists the values the successful [getTimestamp] calls
    returned, oldest first. *)
Fixpoint run (calls : list call) (c : t) : list Z * t :=
  match calls with
  | [] => ([], c)
  | GetTimestamp now :: rest =>
      match getTimestamp now c with
      | Ok (v, c') => let (vs, c'') := run rest c' in (v :: vs, c'')
      | Err _ => run rest c
      end
  | TimerFires probe :: rest => run rest (timerFires probe c)
  | Start probe :: rest => run rest (start probe c)
  | Stop :: rest => run rest (stop c)
  | TimerFiresRejected :: rest => run rest (timerFiresRejected c)
  | StartRejected :: rest => run rest (startRejected c)
  end.

(** What every clock reachable from a new one satisfies: a clock that
    is not running has no timeout pending and no retries counted; on a
    running clock at most one retry more than the number of attempts is
    counted, and a timeout is pending only while the count is within
    the number of attempts. *)
Definition consistent (c : t) : Prop :=
  match _serverTime c with
  | None => _syncTimer c = None /\ _retries c = 0
  | Some _ =>
      0 <= _retries c <= SHARED_CLOCK_IMPROVE_ACCURACY_ATTEMPTS + 1 /\
      (_syncTimer c <> None ->
       _retries c <= SHARED_CLOCK_IMPROVE_ACCURACY_ATTEMPTS)
  end.

(** The clock a run leaves. *)
Definition after (calls : list call) (c : t) : t := snd (run calls c).

End SharedClock.

(** ** TimeInterval

The class is not among the sources; [LivePresence] constructs it from
milliseconds and reads and assigns its [seconds] property. It is taken
as an interface. *)

Class TimeInterval (T : Type) : Type := {
  ofMilliseconds : Q -> T;
  milliseconds : T -> Q;
  seconds : T -> Q;
  set_seconds : Q -> T -> T
}.

(** An implementation that keeps the duration in milliseconds. *)
Record MsInterval : Type := mkMsInterval { ms : Q }.

#[export] Instance MsInterval_TimeInterval : TimeInterval MsInterval := {
  ofMilliseconds := mkMsInterval;
  milliseconds := ms;
  seconds := fun i => (ms i / 1000)%Q;
  set_seconds := fun v _ => mkMsInterval (v * 1000)%Q
}.

(** ** LivePresence *)

Module LivePresence.

Inductive PresenceState : Type :=
| online
| away
| offline.

Definition PresenceState_eqb (a b : PresenceState) : bool :=
  match a, b with
  | online, online | away, away | offline, offline => true
  | _, _ => false
  end.

(** [new LiveEventScope(this.runtime)] *)
Inductive LiveEventScope : Type :=
| mkLiveEventScope.

(** The literal [0.1] of the [expirationPeriod] setter. *)
Definition minimumSeconds : Q := 1 # 10.

Section WithData.

Context {TData : Type} {TI : Type} `{TimeInterval TI} `{Collation}.

Record ILivePresenceEvent : Type := mkPresenceEvent {
  name : string;
  timestamp : Z;
  clientId : option string;
  userId : string;
  state : PresenceState;
  data : option TData
}.

(** An [ILivePresenceEvent] passed where an [IClientTimestamp] is
    expected. *)
Definition asClientTimestamp (evt : ILivePresenceEvent)
  : LiveEvent.IClientTimestamp :=
  {| LiveEvent.timestamp := timestamp evt;
     LiveEvent.clientId := clientId evt |}.

(** Modelled from the spec: [LivePresenceUser] (the class is imported
    from [./LivePresenceUser], which is not among the sources). It wraps
    the latest accepted record of a user and the [isLocalUser] flag; the
    expiration period is the interval object of the roster it was
    created by, so it is read from the roster. *)
Record LivePresenceUser : Type := mkUser {
  _evt : ILivePresenceEvent;
  _isLocalUser : bool
}.

(** Modelled from the spec: [LivePresenceUser.userId], the user id of
    the record the user wraps. *)
Definition userIdOf (user : LivePresenceUser) : string :=
  userId (_evt user).

(** Modelled from the spec: [LivePresenceUser.updateReceived]: the
    record replaces the stored one, and the change is exposed, when
    [isNewer(existing, record, 0)]; otherwise nothing happens. *)
Definition updateReceived (user : LivePresenceUser)
           (evt : ILivePresenceEvent) : LivePresenceUser * bool :=
  if LiveEvent.isNewer (Some (asClientTimestamp (_evt user)))
                       (asClientTimestamp evt) 0
  then ({| _evt := evt; _isLocalUser := _isLocalUser user |}, true)
  else (user, false).

(** Modelled from the spec: [LivePresenceUser.state]: [offline] once
    [now - record.timestamp > expirationPeriodMs], the stored state
    otherwise. *)
Definition stateOf (expirationPeriod : TI) (now : Z)
           (user : LivePresenceUser) : PresenceState :=
  if Qlt_le_dec (milliseconds expirationPeriod)
                (inject_Z (now - timestamp (_evt user)))
  then offline
  else state (_evt user).

(** What a call hands to listeners and to the telemetry logger. *)
Inductive emission : Type :=
| presenceChanged (user : LivePresenceUser) (local : bool)
| LocalPresenceChanged (evt : ILivePresenceEvent)
| RemotePresenceChanged (evt : ILivePresenceEvent).

Definition isPresenceChanged (e : emission) : bool :=
  match e with
  | presenceChanged _ _ => true
  | _ => false
  end.

Record t : Type := mkPresence {
  _expirationPeriod : TI;
  _users : list LivePresenceUser;
  _currentPresence : ILivePresenceEvent;
  _scope : option LiveEventScope
}.

(** An object as its field initialisers leave it. *)
Definition create : t :=
  {| _expirationPeriod := ofMilliseconds 20000;
     _users := [];
     _currentPresence :=
       {| name := "UpdatePresence"; timestamp := 0; clientId := None;
          userId := ""; state := offline; data := None |};
     _scope := None |}.

Definition isInitialized (p : t) : bool :=
  match _scope p with
  | Some _ => true
  | None => false
  end.

Definition expirationPeriod (p : t) : Q :=
  seconds (_expirationPeriod p).

Definition set_expirationPeriod (value : Q) (p : t) : t :=
  {| _expirationPeriod :=
       set_seconds
         (if Qlt_le_dec minimumSeconds value then value
          else minimumSeconds)
         (_expirationPeriod p);
     _users := _users p;
     _currentPresence := _currentPresence p;
     _scope := _scope p |}.

(** The closure [emitEvent] of [updateMembersList]. *)
Definition emitEvent (evt : ILivePresenceEvent) (local : bool)
           (user : LivePresenceUser) : list emission :=
  [ presenceChanged user local;
    if local then LocalPresenceChanged evt
    else RemotePresenceChanged evt ].

(** The scan of [updateMembersList] from the position of the head of
    [users]: the list after the call and the user a change is emitted
    for, if any. *)
Fixpoint scanFrom (users : list LivePresenceUser)
         (evt : ILivePresenceEvent) (newUser : LivePresenceUser)
  : list LivePresenceUser * option LivePresenceUser :=
  match users with
  | [] => ([newUser], Some newUser)
  | current :: rest =>
      let cmp := localeCompare (userId evt) (userIdOf current) in
      if cmp =? 0 then
        let (current', changed) := updateReceived current evt in
        (current' :: rest, if changed then Some current' else None)
      else if cmp >? 0 then
        (newUser :: current :: rest, Some newUser)
      else
        let (rest', emitted) := scanFrom rest evt newUser in
        (current :: rest', emitted)
  end.

Definition updateMembersList (evt : ILivePresenceEvent) (local : bool)
           (p : t) : t * list emission :=
  let newUser :=
    {| _evt := evt;
       _isLocalUser :=
         String.eqb (userId evt) (userId (_currentPresence p)) |} in
  let (users, emitted) := scanFrom (_users p) evt newUser in
  ({| _expirationPeriod := _expirationPeriod p;
      _users := users;
      _currentPresence := _currentPresence p;
      _scope := _scope p |},
   match emitted with
   | Some user => emitEvent evt local user
   | None => []
   end).

(** A sequence of merges; the emissions are listed oldest first. *)
Fixpoint mergeAll (evts : list (ILivePresenceEvent * bool)) (p : t)
  : t * list emission :=
  match evts with
  | [] => (p, [])
  | (evt, local) :: rest =>
      let (p1, out1) := updateMembersList evt local p in
      let (p2, out2) := mergeAll rest p1 in
      (p2, out1 ++ out2)
  end.

(** [initialize], from the call to the end of its promise; [now] is
    what [LiveEvent.getTimestamp()] returns, [guid] what [v4()] returns
    and [connected] the client id [waitUntilConnected()] resolves to.
    The callbacks handed to the synchronizer, which stamp the current
    presence again later, run after it and are not part of it. *)
Definition initialize (userId' : option string) (data' : option TData)
           (state' : option PresenceState)
           (now : Z) (guid connected : string) (p : t)
  : result (t * list emission) :=
  match _scope p with
  | Some _ => Err "LivePresence: already started."
  | None =>
      let current :=
        {| name := name (_currentPresence p);
           timestamp := now;
           clientId := Some connected;
           userId := match userId' with
                     | Some (String c s) => String c s
                     | _ => guid
                     end;
           state := match state' with
                    | Some s => s
                    | None => online
                    end;
           data := data' |} in
      Ok (updateMembersList current true
            {| _expirationPeriod := _expirationPeriod p;
               _users := _users p;
               _currentPresence := current;
               _scope := Some mkLiveEventScope |})
  end.

(** [updatePresence], the test made in the call followed by what the
    call leaves to run once [waitUntilConnected()] resolves; [connected]
    is the client id it resolves to and [sent] the timestamp [sendEvent]
    fills in. *)
Definition updatePresence (state' : option PresenceState)
           (data' : option TData) (connected : string) (sent : Z)
           (p : t) : result (t * list emission) :=
  match _scope p with
  | None => Err "LivePresence: not started."
  | Some _ =>
      let evt :=
        {| name := "UpdatePresence";
           timestamp := sent;
           clientId := Some connected;
           userId := userId (_currentPresence p);
           state := match state' with
                    | Some s => s
                    | None => state (_currentPresence p)
                    end;
           data := match data' with
                   | Some d => Some d
                   | None => data (_currentPresence p)
                   end |} in
      Ok (updateMembersList evt true
            {| _expirationPeriod := _expirationPeriod p;
               _users := _users p;
               _currentPresence := evt;
               _scope := _scope p |})
  end.

Definition matchesFilter (filter : option PresenceState) (now : Z)
           (p : t) (user : LivePresenceUser) : bool :=
  match filter with
  | None => true
  | Some wanted =>
      PresenceState_eqb (stateOf (_expirationPeriod p) now user) wanted
  end.

(** [forEach]: the callback threads an accumulator; [now] is the time
    at which the computed states are read. *)
Definition forEach {A : Type} (callback : LivePresenceUser -> A -> A)
           (filter : option PresenceState) (now : Z) (p : t) (acc : A)
  : result A :=
  Ok (fold_left
        (fun acc user =>
           if matchesFilter filter now p user then callback user acc
           else acc)
        (_users p) acc).

(** The users [forEach] calls back for, in the order of the calls. *)
Definition enumerated (filter : option PresenceState) (now : Z) (p : t)
  : result (list LivePresenceUser) :=
  forEach (fun presence list => list ++ [presence]) filter now p [].

Definition toArray (now : Z) (p : t) : result (list LivePresenceUser) :=
  enumerated None now p.

Definition getCount (filter : option PresenceState) (now : Z) (p : t)
  : result Z :=
  match filter with
  | Some wanted =>
      Ok (fold_left
            (fun cnt user =>
               if PresenceState_eqb
                    (stateOf (_expirationPeriod p) now user) wanted
               then cnt + 1 else cnt)
            (_users p) 0)
  | None => Ok (Z.of_nat (List.length (_users p)))
  end.

Definition getPresenceForUser (userId' : string) (p : t)
  : result (option LivePresenceUser) :=
  Ok (find (fun user => String.eqb (userIdOf user) userId') (_users p)).

(** Users listed from the greatest [userId] down. *)
Definition descending (users : list LivePresenceUser) : Prop :=
  StronglySorted
    (fun a b => localeCompare (userIdOf a) (userIdOf b) > 0) users.

Definition ascending (users : list LivePresenceUser) : Prop :=
  StronglySorted
    (fun a b => localeCompare (userIdOf a) (userIdOf b) < 0) users.

(** What reaches the roster of an object over its life: the calls of the
    application and the records of remote senders, which the listeners
    that [initialize] installs pass to [updateMembersList] as not local.
    The synchronizer stamping the current presence again touches
    timestamps only and is not among them. *)
Inductive op : Type :=
| Initialize (userId' : option string) (data' : option TData)
             (state' : option PresenceState)
             (now : Z) (guid connected : string)
| UpdatePresence (state' : option PresenceState) (data' : option TData)
                 (connected : string) (sent : Z)
| Received (evt : ILivePresenceEvent)
| SetExpirationPeriod (value : Q).

(** One of them; a call that throws leaves the object as it was, and
    before [initialize] there is no listener for a record to reach. *)
Definition step (p : t) (o : op) : t :=
  match o with
  | Initialize userId' data' state' now guid connected =>
      match initialize userId' data' state' now guid connected p with
      | Ok (p', _) => p'
      | Err _ => p
      end
  | UpdatePresence state' data' connected sent =>
      match updatePresence state' data' connected sent p with
      | Ok (p', _) => p'
      | Err _ => p
      end
  | Received evt =>
      match _scope p with
      | Some _ => fst (updateMembersList evt false p)
      | None => p
      end
  | SetExpirationPeriod value => set_expirationPeriod value p
  end.

Definition steps (ops : list op) (p : t) : t := fold_left step ops p.

(** The test of the scan: the user id of [evt] and that of [user]
    collate equal. *)
Definition collatesWith (evt : ILivePresenceEvent) (user : LivePresenceUser)
  : bool :=
  localeCompare (userId evt) (userIdOf user) =? 0.

(** The user that stands for the user id of [evt] once [evt] is merged
    into [users]: the first user whose id collates equal, after its
    update, or [newUser] when there is none. *)
Definition mergedUser (users : list LivePresenceUser)
           (evt : ILivePresenceEvent) (newUser : LivePresenceUser)
  : LivePresenceUser :=
  match find (collatesWith evt) users with
  | Some old => fst (updateReceived old evt)
  | None => newUser
  end.

(** The flag [isLocalUser] is set for exactly the users whose user id
    collates equal with the user id of the object. *)
Definition flagsLocalUser (p : t) : Prop :=
  forall user,
    In user (_users p) ->
    (_isLocalUser user = true <->
     localeCompare (userIdOf user) (userId (_currentPresence p)) = 0).

(** What the calls keep true of an object: the users are listed from
    the greatest user id down, the flag [isLocalUser] marks the users
    whose id collates equal with the object's own user id, and the
    roster is empty until [initialize] and holds such a user from then
    on. *)
Definition wellFormed (p : t) : Prop :=
  descending (_users p) /\
  flagsLocalUser p /\
  match _scope p with
  | None => _users p = []
  | Some _ =>
      exists user,
        In user (_users p) /\
        localeCompare (userIdOf user) (userId (_currentPresence p)) = 0
  end.

(** Records of which no two are for user ids that collate equal. *)
Definition oneRecordPerUser (evts : list (ILivePresenceEvent * bool)) : Prop :=
  NoDup evts /\
  forall e1 e2,
    In e1 evts -> In e2 evts ->
    localeCompare (userId (fst e1)) (userId (fst e2)) = 0 -> e1 = e2.

End WithData.

Arguments ILivePresenceEvent : clear implicits.
Arguments LivePresenceUser : clear implicits.
Arguments emission : clear implicits.
Arguments t : clear implicits.
Arguments op : clear implicits.

(** A record without payload and an object that holds no payload and
    keeps its expiration period in milliseconds. *)
Definition plainEvent (userId' : string) (timestamp' : Z)
           (clientId' : string) (state' : PresenceState)
  : ILivePresenceEvent unit :=
  {| name := "UpdatePresence"; timestamp := timestamp';
     clientId := Some clientId'; userId := userId';
     state := state'; data := None |}.

Definition fresh : t unit MsInterval := create.

End LivePresence.

(** * Properties *)

Arguments LiveEvent.isNewer : simpl never.

(** Case analysis on the integer tests of a goal. *)
Ltac split_tests :=
  repeat rewrite Z.gtb_ltb in *;
  repeat match goal with
    | |- context [?a =? ?b] => destruct (Z.eqb_spec a b)
    | |- context [?a <? ?b] => destruct (Z.ltb_spec a b)
    | |- context [?a <=? ?b] => destruct (Z.leb_spec a b)
    end.

(** ** The order of a collation *)

(** All that the laws say of three strings, for [lia] to conclude from. *)
Ltac collate a b c :=
  pose proof (localeCompare_swap a a); pose proof (localeCompare_swap a b);
  pose proof (localeCompare_swap a c); pose proof (localeCompare_swap b a);
  pose proof (localeCompare_swap b b); pose proof (localeCompare_swap b c);
  pose proof (localeCompare_swap c a); pose proof (localeCompare_swap c b);
  pose proof (localeCompare_swap c c);
  pose proof (localeCompare_ge_trans a b c);
  pose proof (localeCompare_ge_trans a c b);
  pose proof (localeCompare_ge_trans b a c);
  pose proof (localeCompare_ge_trans b c a);
  pose proof (localeCompare_ge_trans c a b);
  pose proof (localeCompare_ge_trans c b a);
  lia.

Section CollationFacts.

Context `{CollationLaws}.

Lemma localeCompare_refl (a : string) : localeCompare a a = 0.
Proof. collate a a a. Qed.

Lemma localeCompare_neg (a b : string) :
  localeCompare a b < 0 <-> localeCompare b a > 0.
Proof. collate a b b. Qed.

Lemma localeCompare_zero_sym (a b : string) :
  localeCompare a b = 0 -> localeCompare b a = 0.
Proof. collate a b b. Qed.

Lemma localeCompare_zero_trans (a b c : string) :
  localeCompare a b = 0 -> localeCompare b c = 0 -> localeCompare a c = 0.
Proof. collate a b c. Qed.

Lemma localeCompare_pos_trans (a b c : string) :
  localeCompare a b > 0 -> localeCompare b c > 0 -> localeCompare a c > 0.
Proof. collate a b c. Qed.

Lemma localeCompare_zero_pos (a b c : string) :
  localeCompare a b = 0 -> localeCompare b c > 0 -> localeCompare a c > 0.
Proof. collate a b c. Qed.

Lemma localeCompare_pos_zero (a b c : string) :
  localeCompare a b > 0 -> localeCompare b c = 0 -> localeCompare a c > 0.
Proof. collate a b c. Qed.

(** Strings that collate equal compare alike with every string. *)
Lemma localeCompare_zero_left (a b c : string) :
  localeCompare a b = 0 -> (localeCompare a c = 0 <-> localeCompare b c = 0).
Proof. collate a b c. Qed.

End CollationFacts.

(** The order on code units is a collation. *)

Lemma ascii_compare_refl (a : ascii) : Ascii.compare a a = Eq.
Proof. unfold Ascii.compare. apply N.compare_refl. Qed.

Lemma ascii_compare_lt_trans (a b c : ascii) :
  Ascii.compare a b = Lt -> Ascii.compare b c = Lt ->
  Ascii.compare a c = Lt.
Proof.
  unfold Ascii.compare. rewrite !N.compare_lt_iff. intros; lia.
Qed.

Lemma string_compare_refl (s : string) : String.compare s s = Eq.
Proof.
  induction s as [|a s IH]; simpl; [reflexivity|].
  now rewrite ascii_compare_refl.
Qed.

Lemma string_compare_lt_trans (s1 : string) :
  forall s2 s3,
    String.compare s1 s2 = Lt -> String.compare s2 s3 = Lt ->
    String.compare s1 s3 = Lt.
Proof.
  induction s1 as [|a s1 IH]; intros [|b s2] [|c s3]; simpl;
    try discriminate; try reflexivity.
  destruct (Ascii.compare a b) eqn:Eab; try discriminate;
    destruct (Ascii.compare b c) eqn:Ebc; try discriminate; intros H12 H23.
  - apply Ascii.compare_eq_iff in Eab, Ebc. subst.
    rewrite ascii_compare_refl. eauto.
  - apply Ascii.compare_eq_iff in Eab. subst. now rewrite Ebc.
  - apply Ascii.compare_eq_iff in Ebc. subst. now rewrite Eab.
  - now rewrite (ascii_compare_lt_trans _ _ _ Eab Ebc).
Qed.

Lemma compareCodeUnits_sign (a b : string) :
  (compareCodeUnits a b < 0 <-> String.compare a b = Lt) /\
  (compareCodeUnits a b = 0 <-> a = b) /\
  (compareCodeUnits a b > 0 <-> String.compare b a = Lt).
Proof.
  unfold compareCodeUnits. rewrite (String.compare_antisym b a).
  destruct (String.compare a b) eqn:E; simpl;
    repeat split; intros; try lia; try discriminate; try reflexivity.
  - now apply String.compare_eq_iff.
  - subst. rewrite string_compare_refl in E. discriminate.
  - subst. rewrite string_compare_refl in E. discriminate.
Qed.

#[export] Instance codeUnits_laws : CollationLaws.
Proof.
  split; simpl.
  - intros a b.
    destruct (compareCodeUnits_sign a b) as (_ & _ & Hgt).
    destruct (compareCodeUnits_sign b a) as (Hlt & _ & _).
    rewrite Hgt, Hlt. tauto.
  - intros a b c Hab Hbc.
    destruct (compareCodeUnits_sign a b) as (Lab & Eab & _).
    destruct (compareCodeUnits_sign b c) as (Lbc & Ebc & _).
    destruct (compareCodeUnits_sign a c) as (Lac & _ & _).
    destruct (Z.lt_total (compareCodeUnits a c) 0) as [Hneg|]; [|lia].
    apply Lac in Hneg.
    destruct (Z.eq_dec (compareCodeUnits a b) 0) as [Zab|Nab].
    + apply Eab in Zab. subst b. apply Lbc in Hneg. lia.
    + destruct (Z.eq_dec (compareCodeUnits b c) 0) as [Zbc|Nbc].
      * apply Ebc in Zbc. subst c. apply Lab in Hneg. lia.
      * exfalso.
        destruct (compareCodeUnits_sign b a) as (Lba & _ & _).
        destruct (compareCodeUnits_sign c b) as (Lcb & _ & _).
        destruct (compareCodeUnits_sign a b) as (_ & _ & Gab).
        destruct (compareCodeUnits_sign b c) as (_ & _ & Gbc).
        assert (String.compare b a = Lt) as Hba by (apply Gab; lia).
        assert (String.compare c b = Lt) as Hcb by (apply Gbc; lia).
        pose proof (string_compare_lt_trans _ _ _ Hcb Hba) as Hca.
        pose proof (string_compare_lt_trans _ _ _ Hca Hneg) as Hcc.
        rewrite string_compare_refl in Hcc. discriminate.
Qed.

(** ** LiveEvent.isNewer *)

Module LiveEventProps.

Import LiveEvent.

Section Rule.

Context `{Collation}.

(** [isNewer] spelled out for a present [current]. *)
Lemma isNewer_spec (current received : IClientTimestamp) (d : Z) :
  isNewer (Some current) received d = true <->
  (timestamp current = timestamp received /\
   localeCompare (orEmpty (clientId current))
                 (orEmpty (clientId received)) > 0) \/
  (timestamp current > timestamp received /\
   timestamp current - timestamp received <= d) \/
  (timestamp current < timestamp received /\
   timestamp received - timestamp current >= d).
Proof.
  unfold isNewer. split_tests; split; intros Hyp;
    try discriminate; try reflexivity; try lia.
Qed.

Lemma isNewer_absent (received : IClientTimestamp) (d : Z) :
  isNewer None received d = true.
Proof. reflexivity. Qed.

Lemma isNewer_false (current received : IClientTimestamp) (d : Z) :
  isNewer (Some current) received d = false <->
  ~ isNewer (Some current) received d = true.
Proof. destruct (isNewer (Some current) received d); split; congruence. Qed.

(** With no debounce period, [isNewer] is the order "later timestamp,
    or same timestamp and a client id that sorts before". *)
Lemma isNewer_nodebounce (current received : IClientTimestamp) (d : Z) :
  d <= 0 ->
  (isNewer (Some current) received d = true <->
   timestamp current < timestamp received \/
   (timestamp current = timestamp received /\
    localeCompare (orEmpty (clientId current))
                  (orEmpty (clientId received)) > 0)).
Proof. intros Hd. rewrite isNewer_spec. lia. Qed.

Lemma replica_snoc (d : Z) (l : list IClientTimestamp)
      (r : IClientTimestamp) :
  replica d (l ++ [r]) = deliver d (replica d l) r.
Proof. unfold replica. now rewrite fold_left_app. Qed.

Lemma replica_nil_iff (d : Z) (l : list IClientTimestamp) :
  replica d l = None <-> l = [].
Proof.
  split; [|intros ->; reflexivity].
  induction l as [|x l IH] using rev_ind; [reflexivity|].
  rewrite replica_snoc. unfold deliver.
  destruct (replica d l) as [m|].
  - destruct (isNewer (Some m) x d); discriminate.
  - rewrite isNewer_absent. discriminate.
Qed.

(** C3 (as amended). When [current] is strictly later than [received],
    [isNewer] returns true if and only if the two timestamps are at most
    the debounce period apart: the older event is accepted when it falls
    inside the debounce window of the current one and is rejected when
    it is older than that. *)
Theorem isNewer_older_within_debounce
        (current received : IClientTimestamp) (debouncePeriod : Z) :
  timestamp current > timestamp received ->
  (isNewer (Some current) received debouncePeriod = true <->
   timestamp current - timestamp received <= debouncePeriod).
Proof. intros Hgt. rewrite isNewer_spec. lia. Qed.

(** C4. When [received] is strictly later than [current], [isNewer]
    returns true if and only if the two timestamps are at least the
    debounce period apart. *)
Theorem isNewer_later_outside_debounce
        (current received : IClientTimestamp) (debouncePeriod : Z) :
  timestamp received > timestamp current ->
  (isNewer (Some current) received debouncePeriod = true <->
   timestamp received - timestamp current >= debouncePeriod).
Proof. intros Hgt. rewrite isNewer_spec. lia. Qed.

End Rule.

Section Order.

Context `{CollationLaws}.

(** A record never replaces itself. *)
Lemma isNewer_irrefl (r : IClientTimestamp) (d : Z) :
  isNewer (Some r) r d = false.
Proof.
  apply isNewer_false. rewrite isNewer_spec.
  rewrite localeCompare_refl. lia.
Qed.

Lemma isNewer_trans (a b c : IClientTimestamp) (d : Z) :
  d <= 0 ->
  isNewer (Some a) b d = true -> isNewer (Some b) c d = true ->
  isNewer (Some a) c d = true.
Proof.
  intros Hd. rewrite !(isNewer_nodebounce _ _ _ Hd).
  intros [Hab|[Hab Cab]] [Hbc|[Hbc Cbc]]; try (left; lia).
  right. split; [lia|]. eapply localeCompare_pos_trans; eauto.
Qed.

Lemma isNewer_asym (a b : IClientTimestamp) (d : Z) :
  d <= 0 ->
  isNewer (Some a) b d = true -> isNewer (Some b) a d = false.
Proof.
  intros Hd Hab. apply isNewer_false. intros Hba.
  pose proof (isNewer_trans _ _ _ _ Hd Hab Hba) as Haa.
  rewrite isNewer_irrefl in Haa. discriminate.
Qed.

(** Two records neither of which replaces the other have the same
    timestamp and client ids that collate equal. *)
Lemma isNewer_total (a b : IClientTimestamp) (d : Z) :
  d <= 0 ->
  isNewer (Some a) b d = false -> isNewer (Some b) a d = false ->
  sameKey a b.
Proof.
  intros Hd Hab Hba. apply isNewer_false in Hab, Hba.
  rewrite (isNewer_nodebounce a b d Hd) in Hab.
  rewrite (isNewer_nodebounce b a d Hd) in Hba.
  assert (timestamp a = timestamp b) as Ets by lia.
  split; [exact Ets|].
  pose proof (localeCompare_swap (orEmpty (clientId a)) (orEmpty (clientId b))).
  pose proof (localeCompare_swap (orEmpty (clientId b)) (orEmpty (clientId a))).
  lia.
Qed.


(** C1 (as amended). When [current] is present and both records carry
    the same timestamp, [isNewer] returns true if and only if the client
    id of [received] sorts strictly before that of [current] in the
    collation of the host, that is if and only if [localeCompare] called
    on the client id of [current] with that of [received] is positive:
    the lower client id wins the tie, whatever the debounce period, and
    equal client ids do not replace each other. *)
Theorem isNewer_tie_lower_clientId_wins
        (current received : IClientTimestamp) (debouncePeriod : Z) :
  timestamp current = timestamp received ->
  (isNewer (Some current) received debouncePeriod = true <->
   localeCompare (orEmpty (clientId received))
                 (orEmpty (clientId current)) < 0) /\
  (isNewer (Some current) received debouncePeriod = true <->
   localeCompare (orEmpty (clientId current))
                 (orEmpty (clientId received)) > 0) /\
  (orEmpty (clientId current) = orEmpty (clientId received) ->
   isNewer (Some current) received debouncePeriod = false).
Proof.
  intros Ets. split; [|split].
  - rewrite isNewer_spec, <- localeCompare_swap. lia.
  - rewrite isNewer_spec. lia.
  - intros Hsame. apply isNewer_false. rewrite isNewer_spec, Hsame.
    rewrite localeCompare_refl. lia.
Qed.


End Order.

(** On a host that sorts ["a"] before ["b"]: the tie [{100, "b"}]
    against [{100, "a"}] goes to ["a"], the reversed call is rejected
    and so is a record with the same client id. *)
Lemma isNewer_tie_lower_clientId_wins_witness :
  isNewer (Some (mkClientTimestamp 100 (Some "b")))
          (mkClientTimestamp 100 (Some "a")) 0 = true /\
  isNewer (Some (mkClientTimestamp 100 (Some "a")))
          (mkClientTimestamp 100 (Some "b")) 0 = false /\
  isNewer (Some (mkClientTimestamp 100 (Some "a")))
          (mkClientTimestamp 100 (Some "a")) 0 = false.
Proof.
  split; [|split].
  - apply (isNewer_tie_lower_clientId_wins
             (mkClientTimestamp 100 (Some "b"))
             (mkClientTimestamp 100 (Some "a")) 0); reflexivity.
  - reflexivity.
  - apply (isNewer_tie_lower_clientId_wins
             (mkClientTimestamp 100 (Some "a"))
             (mkClientTimestamp 100 (Some "a")) 0); reflexivity.
Defined.

(** C1 as stated fails: with equal timestamps, ["b"] sorts strictly
    after ["a"] and still [isNewer] rejects the record of ["b"]. *)
Lemma isNewer_tie_higher_clientId_loses :
  let current := mkClientTimestamp 100 (Some "a") in
  let received := mkClientTimestamp 100 (Some "b") in
  timestamp current = timestamp received /\
  localeCompare (orEmpty (clientId received))
                (orEmpty (clientId current)) > 0 /\
  isNewer (Some current) received 0 = false.
Proof. repeat split. Qed.

Lemma isNewer_older_within_debounce_witness :
  isNewer (Some (mkClientTimestamp 1000 None))
          (mkClientTimestamp 997 None) 5 = true.
Proof.
  apply (isNewer_older_within_debounce
           (mkClientTimestamp 1000 None) (mkClientTimestamp 997 None) 5);
    simpl; lia.
Defined.

(** C3 as stated fails: the received event is older by 10, more than the
    debounce period of 5, and it is rejected. *)
Lemma isNewer_older_beyond_debounce_rejected :
  let current := mkClientTimestamp 1000 None in
  let received := mkClientTimestamp 990 None in
  timestamp current > timestamp received /\
  timestamp current - timestamp received > 5 /\
  isNewer (Some current) received 5 = false.
Proof. repeat split. Qed.

(** The two calls of the specification: 1003 after 1000 is too soon for
    a debounce period of 5, 1006 is not. *)
Lemma isNewer_later_outside_debounce_witness :
  isNewer (Some (mkClientTimestamp 1000 None))
          (mkClientTimestamp 1003 None) 5 = false /\
  isNewer (Some (mkClientTimestamp 1000 None))
          (mkClientTimestamp 1006 None) 5 = true.
Proof.
  split.
  - apply isNewer_false.
    rewrite (isNewer_later_outside_debounce
               (mkClientTimestamp 1000 None)
               (mkClientTimestamp 1003 None) 5); simpl; lia.
  - apply (isNewer_later_outside_debounce
             (mkClientTimestamp 1000 None)
             (mkClientTimestamp 1006 None) 5); simpl; lia.
Defined.



End LiveEventProps.

(** ** SharedClock *)

Module SharedClockProps.

Import SharedClock.

Lemma improveAccuracy_lastTimeSent (probe : IServerTimeOffset) (c : t) :
  _lastTimeSent (improveAccuracy probe c) = _lastTimeSent c.
Proof. unfold improveAccuracy. now destruct (improvesOn probe c). Qed.

Lemma timerFires_lastTimeSent (probe : IServerTimeOffset) (c : t) :
  _lastTimeSent (timerFires probe c) = _lastTimeSent c.
Proof.
  unfold timerFires. destruct (_syncTimer c); [|reflexivity].
  apply improveAccuracy_lastTimeSent.
Qed.

Lemma start_lastTimeSent (probe : IServerTimeOffset) (c : t) :
  _lastTimeSent (start probe c) = _lastTimeSent c.
Proof. unfold start. now rewrite improveAccuracy_lastTimeSent. Qed.

Lemma timerFiresRejected_lastTimeSent (c : t) :
  _lastTimeSent (timerFiresRejected c) = _lastTimeSent c.
Proof. unfold timerFiresRejected. now destruct (_syncTimer c). Qed.

(** A started clock answers, with a value above the last one it sent,
    and stays started. *)
Lemma getTimestamp_started (now : Z) (c : t) :
  isRunning c = true ->
  exists v c',
    getTimestamp now c = Ok (v, c') /\
    _lastTimeSent c < v /\ _lastTimeSent c' = v /\
    isRunning c' = true.
Proof.
  unfold isRunning, getTimestamp.
  destruct (_serverTime c) as [best|] eqn:Hs; [|discriminate]. intros _.
  eexists. eexists. split; [reflexivity|]. simpl.
  split; [lia|]. split; reflexivity.
Qed.

Lemma improveAccuracy_running (probe : IServerTimeOffset) (c : t) :
  isRunning (improveAccuracy probe c) = true.
Proof.
  unfold isRunning, improveAccuracy, improvesOn.
  destruct (_serverTime c) as [best|]; [|reflexivity].
  now destruct (Qlt_le_dec (requestLatency probe) (requestLatency best)).
Qed.

Lemma timerFires_running (probe : IServerTimeOffset) (c : t) :
  isRunning c = true -> isRunning (timerFires probe c) = true.
Proof.
  intros Hrun. unfold timerFires. destruct (_syncTimer c); [|exact Hrun].
  apply improveAccuracy_running.
Qed.

Lemma timerFiresRejected_running (c : t) :
  isRunning c = true -> isRunning (timerFiresRejected c) = true.
Proof. unfold timerFiresRejected. now destruct (_syncTimer c). Qed.

Lemma start_running (probe : IServerTimeOffset) (c : t) :
  isRunning (start probe c) = true.
Proof. apply improveAccuracy_running. Qed.

Lemma getTimestamp_above (now : Z) (c c' : t) (v : Z) :
  getTimestamp now c = Ok (v, c') ->
  _lastTimeSent c < v /\ _lastTimeSent c' = v.
Proof.
  unfold getTimestamp. destruct (_serverTime c); [|discriminate].
  intros Heq. inversion Heq; subst. simpl. lia.
Qed.

(** Every value returned in a run is above the last value sent before
    the run, and the values increase along the run. *)
Lemma run_above (calls : list call) :
  forall c,
    Forall (fun v => _lastTimeSent c < v) (fst (run calls c)) /\
    StronglySorted Z.lt (fst (run calls c)).
Proof.
  induction calls as [|[now|probe|probe| | |] calls IH]; intros c; simpl.
  - split; constructor.
  - destruct (getTimestamp now c) as [[v c']|m] eqn:Hget; [|apply IH].
    apply getTimestamp_above in Hget as [Hlt Hlast].
    destruct (IH c') as [Habove Hsorted].
    destruct (run calls c') as [vs c'']. simpl in *.
    rewrite Hlast in Habove.
    split.
    + constructor; [assumption|].
      eapply Forall_impl; [|exact Habove]. simpl; intros; lia.
    + constructor; assumption.
  - rewrite <- (timerFires_lastTimeSent probe c). apply IH.
  - rewrite <- (start_lastTimeSent probe c). apply IH.
  - apply (IH (stop c)).
  - rewrite <- (timerFiresRejected_lastTimeSent c). apply IH.
  - apply (IH (stop c)).
Qed.

(** A running clock answers every read of a run that neither stops it
    nor fails to start it again. *)
Lemma run_answers (calls : list call) :
  forall c,
    isRunning c = true ->
    forallb keepsRunning calls = true ->
    List.length (fst (run calls c)) = List.length (filter isRead calls).
Proof.
  induction calls as [|[now|probe|probe| | |] calls IH]; intros c Hrun Hkeep;
    simpl in *; try discriminate.
  - reflexivity.
  - destruct (getTimestamp_started now c) as (v & c' & Hget & _ & _ & Hrun');
      [exact Hrun|].
    rewrite Hget. specialize (IH c' Hrun' Hkeep).
    destruct (run calls c'). simpl in *. now rewrite IH.
  - apply IH; [|exact Hkeep]. now apply timerFires_running.
  - apply IH; [|exact Hkeep]. apply start_running.
  - apply IH; [|exact Hkeep]. now apply timerFiresRejected_running.
Qed.

(** C5. In every sequence of calls on a clock, whatever the readings
    of the local clock and whatever estimates are adopted, or dropped by
    [stop], in between, the values [getTimestamp] returns are strictly
    increasing: each one is greater than all those returned before, and
    than the last one sent before the sequence. And a started clock
    answers every call of [getTimestamp]: through any sequence of reads,
    timer callbacks (answered or failed) and restarts, as many values are
    returned as there are reads. *)
Theorem getTimestamp_strictly_increasing (calls : list call) (c : t) :
  StronglySorted Z.lt (fst (run calls c)) /\
  Forall (fun v => _lastTimeSent c < v) (fst (run calls c)) /\
  (isRunning c = true ->
   forallb keepsRunning calls = true ->
   List.length (fst (run calls c)) = List.length (filter isRead calls)).
Proof.
  split; [apply run_above|].
  split; [apply run_above|].
  apply run_answers.
Qed.

(** The local clock goes back by 10 and a better probe lowers the
    offset by 40 between the reads; a failed probe ends the sampling;
    the three reads return three increasing values. *)
Lemma getTimestamp_strictly_increasing_witness :
  let calls := [ GetTimestamp 1000;
                 TimerFires (mkServerTimeOffset 10 1010 1000 (4 # 1));
                 GetTimestamp 1000;
                 TimerFiresRejected;
                 GetTimestamp 990 ] in
  let c := start (mkServerTimeOffset 50 1050 1000 (20 # 1)) create in
  fst (run calls c) = [1050; 1051; 1052] /\
  List.length (fst (run calls c)) = 3%nat /\
  StronglySorted Z.lt (fst (run calls c)).
Proof.
  intros calls c.
  destruct (getTimestamp_strictly_increasing calls c) as (Hsorted & _ & Hlen).
  split; [reflexivity|]. split; [|exact Hsorted].
  apply Hlen; reflexivity.
Defined.

(** The local clock stands still and a better probe lowers the offset
    by 40 between two reads. *)
Example getTimestamp_offset_regresses :
  fst (run [ Start (mkServerTimeOffset 50 1050 1000 (20 # 1));
             GetTimestamp 1000;
             TimerFires (mkServerTimeOffset 10 1010 1000 (4 # 1));
             GetTimestamp 1000;
             GetTimestamp 990 ]
           create) = [1050; 1051; 1052].
Proof. reflexivity. Qed.

(** An estimate is adopted exactly when none is held or the latency of
    the probe is strictly lower than that of the one held. *)
Lemma improveAccuracy_adopts (probe : IServerTimeOffset) (c : t) :
  _serverTime (improveAccuracy probe c) =
  match _serverTime c with
  | None => Some probe
  | Some best =>
      if Qlt_le_dec (requestLatency probe) (requestLatency best)
      then Some probe else Some best
  end.
Proof.
  unfold improveAccuracy, improvesOn.
  destruct (_serverTime c) as [best|]; [|reflexivity].
  now destruct (Qlt_le_dec (requestLatency probe) (requestLatency best)).
Qed.

Lemma improvesOn_false (probe best : IServerTimeOffset) (c : t) :
  _serverTime c = Some best ->
  (requestLatency best <= requestLatency probe)%Q ->
  improvesOn probe c = false.
Proof.
  intros Hs Hle. unfold improvesOn. rewrite Hs.
  destruct (Qlt_le_dec (requestLatency probe) (requestLatency best)) as [Hlt|];
    [|reflexivity].
  exfalso. exact (Qlt_not_le _ _ Hlt Hle).
Qed.

Lemma start_stalled (probe : IServerTimeOffset) (c : t) :
  stalled probe 0 (start probe c).
Proof. repeat split. Qed.

Lemma timerFires_stalled (best probe : IServerTimeOffset) (r : Z) (c : t) :
  (requestLatency best <= requestLatency probe)%Q ->
  stalled best r c ->
  stalled best
          (if r <=? SHARED_CLOCK_IMPROVE_ACCURACY_ATTEMPTS then r + 1 else r)
          (timerFires probe c).
Proof.
  intros Hle (Hs & Hr & Ht). unfold timerFires. rewrite Ht.
  destruct (r <=? SHARED_CLOCK_IMPROVE_ACCURACY_ATTEMPTS) eqn:Hcmp.
  - unfold improveAccuracy.
    rewrite (improvesOn_false probe best c Hs Hle). simpl.
    rewrite Hr. repeat split; assumption.
  - unfold stalled. rewrite Hcmp. auto.
Qed.

(** After [n] probes in a row that do not improve on the estimate
    [best], the estimate is kept and the next probe is scheduled unless
    [n] exceeds the number of attempts. *)
Lemma feed_non_improving (best : IServerTimeOffset)
      (probes : list IServerTimeOffset) :
  Forall (fun probe => (requestLatency best <= requestLatency probe)%Q)
         probes ->
  forall c r,
    0 <= r <= SHARED_CLOCK_IMPROVE_ACCURACY_ATTEMPTS + 1 ->
    stalled best r c ->
    stalled best
            (Z.min (r + Z.of_nat (List.length probes))
                   (SHARED_CLOCK_IMPROVE_ACCURACY_ATTEMPTS + 1))
            (feed probes c).
Proof.
  induction 1 as [|probe probes Hle _ IH]; intros c r Hr Hc.
  - match goal with
    | |- stalled _ ?x _ =>
        replace x with r
          by (unfold SHARED_CLOCK_IMPROVE_ACCURACY_ATTEMPTS in *;
              simpl List.length; lia)
    end.
    exact Hc.
  - change (feed (probe :: probes) c)
      with (feed probes (timerFires probe c)).
    pose proof (timerFires_stalled best probe r c Hle Hc) as Hc'.
    destruct (Z.leb_spec r SHARED_CLOCK_IMPROVE_ACCURACY_ATTEMPTS).
    + match goal with
      | |- stalled _ ?x _ =>
          replace x
            with (Z.min (r + 1 + Z.of_nat (List.length probes))
                        (SHARED_CLOCK_IMPROVE_ACCURACY_ATTEMPTS + 1))
            by (simpl List.length; lia)
      end.
      apply IH; [lia|exact Hc'].
    + match goal with
      | |- stalled _ ?x _ =>
          replace x
            with (Z.min (r + Z.of_nat (List.length probes))
                        (SHARED_CLOCK_IMPROVE_ACCURACY_ATTEMPTS + 1))
            by (simpl List.length; lia)
      end.
      apply IH; [lia|exact Hc'].
Qed.

(** C6 (the scheduling the code performs). A clock is started with a
    probe of latency 10 and then receives probes of latency 10, none of
    which improves on the first. After five of them in a row the
    estimate is kept but the timer is still pending, so that a sixth
    probe is issued; sampling stops only after the sixth. *)
Theorem improveAccuracy_stops_after_six :
  let best := mkServerTimeOffset 0 1000 1000 (10 # 1) in
  let same := mkServerTimeOffset 0 2000 2000 (10 # 1) in
  let five := feed [same; same; same; same; same] (start best create) in
  _serverTime five = Some best /\
  _retries five = 5 /\
  _syncTimer five = Some SHARED_CLOCK_IMPROVE_ACCURACY_INTERVAL /\
  _retries (timerFires same five) = 6 /\
  _syncTimer (timerFires same five) = None /\
  _serverTime (timerFires same five) = Some best.
Proof. repeat split. Qed.

End SharedClockProps.

(** ** LivePresence *)

Module LivePresenceProps.

Import LivePresence.

(** The three ways the scan of [updateMembersList] goes on at a user. *)
Ltac scan_cases evt current :=
  let c := constr:(localeCompare (userId evt) (userIdOf current)) in
  destruct (Z.eqb_spec c 0) as [Hzero|Hnz];
  [|rewrite (Z.gtb_ltb c 0); destruct (Z.ltb_spec 0 c) as [Hpos|Hneg]].

Section Roster.

Context {TData : Type} {TI : Type} `{TimeInterval TI} `{Collation}.

Abbreviation Event := (ILivePresenceEvent TData).
Abbreviation User := (LivePresenceUser TData).
Abbreviation Presence := (t TData TI).

Implicit Types (evt : Event) (user newUser : User) (users : list User)
         (p : Presence).

Lemma descending_cons current rest :
  descending (current :: rest) <->
  descending rest /\
  Forall (fun user =>
            localeCompare (userIdOf current) (userIdOf user) > 0) rest.
Proof.
  unfold descending. split.
  - intros Hs. now apply StronglySorted_inv in Hs.
  - intros [Hs Hall]. now constructor.
Qed.

Lemma descending_filter (keep : User -> bool) users :
  descending users -> descending (filter keep users).
Proof.
  induction users as [|current rest IH]; simpl; intros Hdesc;
    [assumption|].
  apply descending_cons in Hdesc as [Hrest Hall].
  destruct (keep current); [|auto].
  apply descending_cons. split; [auto|].
  apply Forall_forall. intros user Hin.
  apply filter_In in Hin as [Hin _].
  rewrite Forall_forall in Hall. now apply Hall.
Qed.

(** A property of users that the new user has and an update keeps holds
    of all users after the scan when it held of all before. *)
Lemma scanFrom_Forall (P : User -> Prop) users evt newUser :
  Forall P users ->
  P newUser ->
  (forall user,
      P user -> localeCompare (userId evt) (userIdOf user) = 0 ->
      P (fst (updateReceived user evt))) ->
  Forall P (fst (scanFrom users evt newUser)).
Proof.
  intros Hall Hnew Hupd.
  induction Hall as [|current rest Hcur Hrest IH]; simpl.
  - now constructor.
  - scan_cases evt current.
    + specialize (Hupd current Hcur Hzero).
      destruct (updateReceived current evt) as [current' changed].
      simpl in *. now constructor.
    + simpl. repeat constructor; assumption.
    + destruct (scanFrom rest evt newUser) as [rest' emitted].
      simpl in *. now constructor.
Qed.

Lemma fold_push_filter (keep : User -> bool) users :
  forall acc,
    fold_left (fun acc user => if keep user then acc ++ [user] else acc)
              users acc
    = acc ++ List.filter keep users.
Proof.
  induction users as [|user users IH]; intros acc; simpl.
  - now rewrite app_nil_r.
  - rewrite IH. destruct (keep user); [|reflexivity].
    now rewrite <- app_assoc.
Qed.

(** [forEach] calls back for the users that pass the filter, in the
    order of [_users]. *)
Lemma enumerated_filter filter now p :
  enumerated filter now p =
  Ok (List.filter (matchesFilter filter now p) (_users p)).
Proof.
  unfold enumerated, forEach. now rewrite fold_push_filter.
Qed.

Lemma toArray_users now p : toArray now p = Ok (_users p).
Proof.
  unfold toArray. rewrite enumerated_filter. f_equal.
  induction (_users p) as [|user users IH]; simpl; congruence.
Qed.

Lemma updateMembersList_scan evt local p :
  updateMembersList evt local p =
  let scan :=
    scanFrom (_users p) evt
             {| _evt := evt;
                _isLocalUser :=
                  String.eqb (userId evt) (userId (_currentPresence p)) |}
  in
  ({| _expirationPeriod := _expirationPeriod p;
      _users := fst scan;
      _currentPresence := _currentPresence p;
      _scope := _scope p |},
   match snd scan with
   | Some user => emitEvent evt local user
   | None => []
   end).
Proof. unfold updateMembersList. now destruct (scanFrom _ _ _). Qed.

(** C9 (as amended). Before [initialize], [updatePresence] throws at
    once, while [forEach], [getCount] and [getPresenceForUser] return
    normally, on the roster as it stands; [initialize] then succeeds,
    and a second [initialize] on the initialised object throws. *)
Theorem uninitialized_guards p
        (state' state'' : option PresenceState)
        (data' data'' : option TData) (userId' userId'' : option string)
        (filter : option PresenceState)
        (now sent : Z) (guid connected wanted : string)
        (callback : User -> list User -> list User) :
  isInitialized p = false ->
  updatePresence state' data' connected sent p
    = Err "LivePresence: not started." /\
  (exists visited, forEach callback filter now p [] = Ok visited) /\
  (exists count, getCount filter now p = Ok count) /\
  (exists found, getPresenceForUser wanted p = Ok found) /\
  (exists p1 out,
      initialize userId' data' state' now guid connected p = Ok (p1, out) /\
      isInitialized p1 = true /\
      initialize userId'' data'' state'' now guid connected p1
        = Err "LivePresence: already started.").
Proof.
  unfold isInitialized. intros Hscope.
  unfold updatePresence, initialize.
  destruct (_scope p); [discriminate|].
  split; [reflexivity|].
  split; [eexists; reflexivity|].
  split; [destruct filter; eexists; reflexivity|].
  split; [eexists; reflexivity|].
  match goal with
  | |- context [updateMembersList ?e ?l ?q] =>
      assert (_scope (fst (updateMembersList e l q))
              = Some mkLiveEventScope) as Hset
        by (unfold updateMembersList; now destruct (scanFrom _ _ _));
      destruct (updateMembersList e l q) as [p1 out]
  end.
  exists p1, out. simpl in Hset. rewrite Hset. auto.
Qed.

End Roster.

Section OrderedRoster.

Context {TData : Type} {TI : Type} `{TimeInterval TI} `{CollationLaws}.

Abbreviation Event := (ILivePresenceEvent TData).
Abbreviation User := (LivePresenceUser TData).
Abbreviation Presence := (t TData TI).

Implicit Types (evt : Event) (user newUser : User) (users : list User)
         (p : Presence).

(** An update leaves the user in the class of user ids of the record. *)
Lemma updateReceived_collates user evt :
  localeCompare (userId evt) (userIdOf user) = 0 ->
  localeCompare (userId evt) (userIdOf (fst (updateReceived user evt))) = 0.
Proof.
  intros Hzero. unfold updateReceived.
  destruct (LiveEvent.isNewer _ _ _); simpl; [|exact Hzero].
  apply localeCompare_refl.
Qed.

(** The scan keeps the list descending. *)
Lemma scanFrom_descending users evt newUser :
  userIdOf newUser = userId evt ->
  descending users ->
  descending (fst (scanFrom users evt newUser)).
Proof.
  intros Hnew. induction users as [|current rest IH]; simpl; intros Hdesc.
  - repeat constructor.
  - apply descending_cons in Hdesc as [Hrest Hall].
    scan_cases evt current.
    + pose proof (updateReceived_collates current evt Hzero) as Hsame.
      destruct (updateReceived current evt) as [current' changed].
      simpl in *. apply descending_cons. split; [assumption|].
      eapply Forall_impl; [|exact Hall]. simpl. intros user Hgt.
      apply localeCompare_zero_pos with (userIdOf current); [|exact Hgt].
      apply localeCompare_zero_trans with (userId evt); [|exact Hzero].
      now apply localeCompare_zero_sym.
    + simpl.
      apply descending_cons. split.
      * apply descending_cons. now split.
      * rewrite Hnew. constructor; [lia|].
        eapply Forall_impl; [|exact Hall]. simpl. intros user Hcu.
        apply localeCompare_pos_trans with (userIdOf current); lia.
    + assert (localeCompare (userIdOf current) (userId evt) > 0) as Hbelow.
      { apply localeCompare_neg. lia. }
      assert (Forall (fun user =>
                        localeCompare (userIdOf current) (userIdOf user) > 0)
                     (fst (scanFrom rest evt newUser))) as Hall'.
      { apply scanFrom_Forall; [exact Hall|now rewrite Hnew|].
        intros user Hgt Hclass.
        apply localeCompare_pos_zero with (userId evt); [exact Hbelow|].
        now apply updateReceived_collates. }
      specialize (IH Hrest).
      destruct (scanFrom rest evt newUser) as [rest' emitted].
      simpl in *. apply descending_cons. now split.
Qed.

Lemma updateMembersList_descending evt local p :
  descending (_users p) ->
  descending (_users (fst (updateMembersList evt local p))).
Proof.
  intros Hdesc. rewrite updateMembersList_scan. simpl.
  now apply scanFrom_descending.
Qed.

Lemma mergeAll_descending (evts : list (Event * bool)) :
  forall p,
    descending (_users p) ->
    descending (_users (fst (mergeAll evts p))).
Proof.
  induction evts as [|[evt local] evts IH]; intros p Hdesc; simpl;
    [assumption|].
  pose proof (updateMembersList_descending evt local p Hdesc) as Hone.
  destruct (updateMembersList evt local p) as [p1 out1].
  specialize (IH p1 Hone).
  destruct (mergeAll evts p1) as [p2 out2]. exact IH.
Qed.

(** A descending list holds each user id once. *)
Lemma descending_NoDup users :
  descending users -> NoDup (map userIdOf users).
Proof.
  induction users as [|current rest IH]; simpl; intros Hdesc;
    [constructor|].
  apply descending_cons in Hdesc as [Hrest Hall].
  constructor; [|auto].
  intros Hin. apply in_map_iff in Hin as (user & Hsame & Hin).
  rewrite Forall_forall in Hall. specialize (Hall _ Hin).
  rewrite Hsame, localeCompare_refl in Hall. lia.
Qed.

(** C7 (as amended). After any sequence of merges into a roster that
    lists its users from the greatest user id down in the collation of
    the host, and so into a new roster, the roster holds at most one
    user per user id and still lists them from the greatest user id
    down; [forEach], with or without a filter, calls back in that
    descending order, and [toArray] returns the list as it stands. *)
Theorem roster_unique_descending
        (evts : list (Event * bool)) p :
  descending (_users p) ->
  let p' := fst (mergeAll evts p) in
  NoDup (map userIdOf (_users p')) /\
  descending (_users p') /\
  (forall filter now,
      exists visited,
        enumerated filter now p' = Ok visited /\ descending visited) /\
  (forall now, toArray now p' = Ok (_users p')).
Proof.
  intros Hdesc p'.
  assert (descending (_users p')) as Hdesc'
      by now apply mergeAll_descending.
  split; [now apply descending_NoDup|].
  split; [assumption|].
  split; [|intros now; apply toArray_users].
  intros filter now. eexists. split; [apply enumerated_filter|].
  now apply descending_filter.
Qed.

Lemma updateReceived_again user evt :
  updateReceived (fst (updateReceived user evt)) evt
  = (fst (updateReceived user evt), false).
Proof.
  unfold updateReceived at 2 3.
  destruct (LiveEvent.isNewer (Some (asClientTimestamp (_evt user)))
                              (asClientTimestamp evt) 0) eqn:Hnew;
    cbn [fst]; unfold updateReceived; cbn [_evt].
  - now rewrite LiveEventProps.isNewer_irrefl.
  - now rewrite Hnew.
Qed.

(** Scanning again with the same record stops at the same place and
    changes nothing. *)
Lemma scanFrom_again users evt newUser newUser' :
  _evt newUser = evt ->
  scanFrom (fst (scanFrom users evt newUser)) evt newUser'
  = (fst (scanFrom users evt newUser), None).
Proof.
  intros Hnew.
  assert (scanFrom [newUser] evt newUser' = ([newUser], None)) as Hhit.
  { simpl. unfold userIdOf. rewrite Hnew, localeCompare_refl. simpl.
    unfold updateReceived. rewrite Hnew.
    now rewrite LiveEventProps.isNewer_irrefl. }
  induction users as [|current rest IH]; simpl; [exact Hhit|].
  destruct (localeCompare (userId evt) (userIdOf current) =? 0) eqn:Hzero.
  - pose proof (updateReceived_again current evt) as Hagain.
    pose proof (updateReceived_collates current evt
                  (proj1 (Z.eqb_eq _ _) Hzero)) as Hclass.
    destruct (updateReceived current evt) as [current' changed].
    simpl in *. apply Z.eqb_eq in Hclass. now rewrite Hclass, Hagain.
  - destruct (localeCompare (userId evt) (userIdOf current) >? 0) eqn:Hpos.
    + simpl. unfold userIdOf at 1. rewrite Hnew, localeCompare_refl. simpl.
      unfold updateReceived. rewrite Hnew.
      now rewrite LiveEventProps.isNewer_irrefl.
    + destruct (scanFrom rest evt newUser) as [rest' emitted].
      simpl in *. now rewrite Hzero, Hpos, IH.
Qed.

(** A record that is news to the roster is emitted, under a user that
    holds it. *)
Lemma scanFrom_emits users evt newUser :
  _evt newUser = evt ->
  (forall user,
      In user users ->
      localeCompare (userId evt) (userIdOf user) = 0 ->
      LiveEvent.isNewer (Some (asClientTimestamp (_evt user)))
                        (asClientTimestamp evt) 0 = true) ->
  exists user,
    snd (scanFrom users evt newUser) = Some user /\
    _evt user = evt /\
    In user (fst (scanFrom users evt newUser)).
Proof.
  intros Hnew.
  induction users as [|current rest IH]; simpl; intros Hnews.
  - exists newUser. auto.
  - scan_cases evt current.
    + unfold updateReceived.
      rewrite (Hnews current (or_introl eq_refl) Hzero).
      simpl. eexists. split; [reflexivity|]. simpl. auto.
    + exists newUser. simpl. auto.
    + destruct IH as (user & Hsnd & Hevt & Hin);
        [intros; apply Hnews; auto|].
      destruct (scanFrom rest evt newUser) as [rest' emitted].
      simpl in *. exists user. auto.
Qed.

(** C8 (as amended). Applying the same record to a roster twice: the
    second application changes nothing and notifies no one, whatever the
    roster; the first application produces a change (one
    [presenceChanged] notification, with its telemetry event, for a user
    that holds the record) when the record is news to the roster, that
    is when the roster holds no user whose id collates equal with the
    user id of the record, or only such users with records the record is
    newer than. And no record is newer than itself, whatever the
    debounce period. *)
Theorem updateMembersList_idempotent evt (local : bool) p :
  let first := updateMembersList evt local p in
  let second := updateMembersList evt local (fst first) in
  snd second = [] /\
  fst second = fst first /\
  ((forall user,
       In user (_users p) ->
       localeCompare (userId evt) (userIdOf user) = 0 ->
       LiveEvent.isNewer (Some (asClientTimestamp (_evt user)))
                         (asClientTimestamp evt) 0 = true) ->
   exists user,
     _evt user = evt /\ In user (_users (fst first)) /\
     snd first =
       [presenceChanged user local;
        if local then LocalPresenceChanged evt
        else RemotePresenceChanged evt]) /\
  (forall (r : LiveEvent.IClientTimestamp) (d : Z),
      LiveEvent.isNewer (Some r) r d = false).
Proof.
  intros first second. subst first second.
  rewrite (updateMembersList_scan evt local p).
  cbv zeta. cbn [fst snd].
  rewrite updateMembersList_scan.
  cbv zeta. cbn [fst snd _users _currentPresence _scope _expirationPeriod].
  match goal with
  | |- context [scanFrom (_users p) evt ?n] => set (newUser := n)
  end.
  rewrite (scanFrom_again (_users p) evt newUser newUser eq_refl).
  cbn [fst snd].
  repeat split.
  - intros Hnews.
    destruct (scanFrom_emits (_users p) evt newUser eq_refl Hnews)
      as (user & Hsnd & Hevt & Hin).
    rewrite Hsnd. exists user. auto.
  - apply LiveEventProps.isNewer_irrefl.
Qed.

End OrderedRoster.

Lemma roster_unique_descending_witness :
  let p :=
    fst (mergeAll [ (plainEvent "b" 100 "c2" online, false);
                    (plainEvent "a" 101 "c1" online, true);
                    (plainEvent "c" 102 "c3" away, false);
                    (plainEvent "b" 103 "c2" away, false) ]
                  fresh) in
  NoDup (map userIdOf (_users p)) /\
  descending (_users p) /\
  (forall filter now,
      exists visited,
        enumerated filter now p = Ok visited /\ descending visited) /\
  (forall now, toArray now p = Ok (_users p)).
Proof.
  apply (roster_unique_descending
           [ (plainEvent "b" 100 "c2" online, false);
             (plainEvent "a" 101 "c1" online, true);
             (plainEvent "c" 102 "c3" away, false);
             (plainEvent "b" 103 "c2" away, false) ]
           fresh).
  constructor.
Defined.

(** C7 as stated fails: on a host that sorts ["a"] before ["b"], after
    merging a record of user ["a"] and then one of user ["b"], [toArray]
    lists ["b"] before ["a"], which is not the ascending order. *)
Lemma roster_not_ascending :
  let p :=
    fst (mergeAll [ (plainEvent "a" 100 "c1" online, false);
                    (plainEvent "b" 101 "c2" online, false) ]
                  fresh) in
  toArray 0 p = Ok (_users p) /\
  map userIdOf (_users p) = ["b"; "a"] /\
  ~ ascending (_users p).
Proof.
  repeat split.
  intros Hasc. apply StronglySorted_inv in Hasc as [_ Hall].
  apply Forall_inv in Hall. vm_compute in Hall. discriminate Hall.
Qed.

Lemma updateMembersList_idempotent_witness :
  let p := fst (updateMembersList (plainEvent "u1" 90 "c1" online) false
                                  fresh) in
  let evt := plainEvent "u1" 100 "c1" away in
  let first := updateMembersList evt false p in
  let second := updateMembersList evt false (fst first) in
  snd second = [] /\
  fst second = fst first /\
  exists user,
    _evt user = evt /\ In user (_users (fst first)) /\
    snd first = [presenceChanged user false; RemotePresenceChanged evt].
Proof.
  destruct (updateMembersList_idempotent
              (plainEvent "u1" 100 "c1" away) false
              (fst (updateMembersList (plainEvent "u1" 90 "c1" online) false
                                      fresh)))
    as (Hquiet & Hsame & Hfirst & _).
  split; [exact Hquiet|]. split; [exact Hsame|].
  apply Hfirst. simpl. intros user [<-|[]] _. reflexivity.
Defined.

(** C8 as stated fails: a roster holds the record of user ["u1"] stamped
    100; the record of ["u1"] stamped 90 is applied twice, and neither
    the first nor the second application produces a change. *)
Lemma first_application_without_change :
  let p := fst (updateMembersList (plainEvent "u1" 100 "c1" online) false
                                  fresh) in
  let evt := plainEvent "u1" 90 "c1" away in
  let first := updateMembersList evt false p in
  let second := updateMembersList evt false (fst first) in
  snd first = [] /\ fst first = p /\
  snd second = [] /\ fst second = p.
Proof. repeat split. Qed.

Lemma uninitialized_guards_witness :
  updatePresence (Some away) None "c1" 100 fresh
    = Err "LivePresence: not started." /\
  (exists visited,
      forEach (fun user acc => user :: acc) (Some online) 100 fresh []
      = Ok visited) /\
  (exists count, getCount (Some online) 100 fresh = Ok count) /\
  (exists found, getPresenceForUser "u1" fresh = Ok found) /\
  (exists p1 out,
      initialize (Some "u1") None (Some away) 100 "guid" "c1" fresh
      = Ok (p1, out) /\
      isInitialized p1 = true /\
      initialize None None None 100 "guid" "c1" p1
      = Err "LivePresence: already started.").
Proof.
  apply (uninitialized_guards
           fresh (Some away) None None None (Some "u1") None
           (Some online) 100 100 "guid" "c1" "u1"
           (fun user acc => user :: acc)).
  reflexivity.
Defined.

(** C9 as stated fails: on an object that was never initialised,
    [getCount], [forEach] and [getPresenceForUser] return normally. *)
Lemma reads_before_initialize_return :
  isInitialized fresh = false /\
  getCount None 0 fresh = Ok 0 /\
  ~ throws (getCount None 0 fresh) /\
  ~ throws (forEach (fun user acc => user :: acc) None 0 fresh []) /\
  ~ throws (getPresenceForUser "u1" fresh).
Proof.
  repeat split; intros [m Hm]; discriminate Hm.
Qed.

End LivePresenceProps.

(** * Further properties *)

(** ** LiveEvent *)

Module LiveEventMore.

Import LiveEvent LiveEventProps.

Section Rule.

Context `{Collation}.

(** X1. Two records with different timestamps never reject each other:
    whichever of them a replica holds, the other is accepted in at least
    one direction. They accept each other in both directions exactly when
    their timestamps are one debounce period apart. *)
Theorem isNewer_exchange (a b : IClientTimestamp) (debouncePeriod : Z) :
  timestamp a <> timestamp b ->
  (isNewer (Some a) b debouncePeriod = true \/
   isNewer (Some b) a debouncePeriod = true) /\
  (isNewer (Some a) b debouncePeriod = true /\
   isNewer (Some b) a debouncePeriod = true <->
   Z.abs (timestamp a - timestamp b) = debouncePeriod).
Proof.
  intros Hne. rewrite !isNewer_spec. lia.
Qed.

End Rule.

Section Order.

Context `{CollationLaws}.

(** X2. Without a debounce period (zero, the default, or less)
    [isNewer] is a strict order on the records: if [b] replaces [a] then
    [a] does not replace [b]; if [b] replaces [a] and [c] replaces [b]
    then [c] replaces [a]; and of two records, one replaces the other
    unless they have the same timestamp and client ids that collate
    equal. *)
Theorem isNewer_strict_order (debouncePeriod : Z) :
  debouncePeriod <= 0 ->
  (forall a b,
      isNewer (Some a) b debouncePeriod = true ->
      isNewer (Some b) a debouncePeriod = false) /\
  (forall a b c,
      isNewer (Some a) b debouncePeriod = true ->
      isNewer (Some b) c debouncePeriod = true ->
      isNewer (Some a) c debouncePeriod = true) /\
  (forall a b,
      ~ sameKey a b ->
      isNewer (Some a) b debouncePeriod = true \/
      isNewer (Some b) a debouncePeriod = true).
Proof.
  intros Hd. split; [|split].
  - intros a b. now apply isNewer_asym.
  - intros a b c. now apply isNewer_trans.
  - intros a b Hkey.
    destruct (isNewer (Some a) b debouncePeriod) eqn:Hab; [now left|].
    destruct (isNewer (Some b) a debouncePeriod) eqn:Hba; [now right|].
    destruct Hkey. now apply (isNewer_total a b debouncePeriod).
Qed.

End Order.

Lemma isNewer_exchange_witness :
  isNewer (Some (mkClientTimestamp 1000 (Some "a")))
          (mkClientTimestamp 1005 (Some "b")) 5 = true /\
  isNewer (Some (mkClientTimestamp 1005 (Some "b")))
          (mkClientTimestamp 1000 (Some "a")) 5 = true.
Proof.
  apply (isNewer_exchange (mkClientTimestamp 1000 (Some "a"))
                          (mkClientTimestamp 1005 (Some "b")) 5).
  - simpl. lia.
  - reflexivity.
Defined.

Lemma isNewer_strict_order_witness :
  isNewer (Some (mkClientTimestamp 100 (Some "b")))
          (mkClientTimestamp 100 (Some "a")) 0 = true \/
  isNewer (Some (mkClientTimestamp 100 (Some "a")))
          (mkClientTimestamp 100 (Some "b")) 0 = true.
Proof.
  destruct (isNewer_strict_order 0) as (_ & _ & Htotal); [lia|].
  apply Htotal. intros [_ Hid]. discriminate Hid.
Defined.

Section Instance.

Variables (Role TEvent PartialEvent : Type).
Variable targetSendEvent :
  LiveEventTarget Role -> option PartialEvent -> result TEvent.

(** X3. On a [LiveEvent] object that was not initialised, [sendEvent]
    throws; [initialize] then succeeds and builds the target for the
    event name ["event"] and the given roles, to which [sendEvent] from
    then on hands its events; a second [initialize] throws. *)
Theorem LiveEvent_guards (o : t Role) (roles roles' : option (list Role))
        (evt : option PartialEvent) :
  isInitialized o = false ->
  sendEvent targetSendEvent evt o = Err "LiveEvent not started." /\
  exists o1,
    initialize roles o = Ok o1 /\
    isInitialized o1 = true /\
    isStarted o1 = true /\
    sendEvent targetSendEvent evt o1
      = targetSendEvent (mkLiveEventTarget roles "event") evt /\
    initialize roles' o1 = Err "LiveEvent already started.".
Proof.
  unfold isInitialized, isStarted, sendEvent, initialize.
  destruct (_eventTarget o); [discriminate|]. intros _.
  split; [reflexivity|]. eexists. split; [reflexivity|].
  simpl. repeat split.
Qed.

End Instance.

Lemma LiveEvent_guards_witness :
  let send := fun (target : LiveEventTarget string) (evt : option Z) =>
                Ok (eventName target, evt) in
  sendEvent send (Some 7) (mkLiveEvent None) = Err "LiveEvent not started." /\
  exists o1,
    initialize (Some ["Organizer"]) (mkLiveEvent None) = Ok o1 /\
    isInitialized o1 = true /\
    isStarted o1 = true /\
    sendEvent send (Some 7) o1
      = send (mkLiveEventTarget (Some ["Organizer"]) "event") (Some 7) /\
    initialize None o1 = Err "LiveEvent already started.".
Proof.
  intros send.
  apply (LiveEvent_guards _ _ _ send (mkLiveEvent None) (Some ["Organizer"]) None
                          (Some 7)).
  reflexivity.
Defined.

End LiveEventMore.

(** ** SharedClock *)

Module SharedClockMore.

Import SharedClock SharedClockProps.

Lemma improveAccuracy_consistent (probe : IServerTimeOffset) (c : t) :
  _syncTimer c <> None -> consistent c ->
  consistent (improveAccuracy probe c).
Proof.
  unfold consistent, improveAccuracy, improvesOn,
    SHARED_CLOCK_IMPROVE_ACCURACY_ATTEMPTS.
  intros Hpending Hc.
  destruct (_serverTime c) as [best|].
  - destruct Hc as [Hr Ht]. specialize (Ht Hpending).
    destruct (Qlt_le_dec (requestLatency probe) (requestLatency best));
      simpl; (split; [lia|]).
    + intros _. lia.
    + destruct (Z.leb_spec (_retries c + 1) 5); [intros _; lia|congruence].
  - destruct Hc as [Ht _]. congruence.
Qed.

Lemma start_consistent (probe : IServerTimeOffset) (c : t) :
  consistent (start probe c).
Proof.
  unfold consistent, SHARED_CLOCK_IMPROVE_ACCURACY_ATTEMPTS. simpl.
  split; [lia|]. intros _. lia.
Qed.

Lemma timerFires_consistent (probe : IServerTimeOffset) (c : t) :
  consistent c -> consistent (timerFires probe c).
Proof.
  intros Hc. unfold timerFires.
  destruct (_syncTimer c) eqn:Ht; [|exact Hc].
  apply improveAccuracy_consistent; [congruence|exact Hc].
Qed.

Lemma timerFiresRejected_consistent (c : t) :
  consistent c -> consistent (timerFiresRejected c).
Proof.
  unfold consistent, timerFiresRejected.
  destruct (_syncTimer c) eqn:Ht; [|now rewrite Ht]. simpl.
  destruct (_serverTime c); [|intros [? ?]; auto].
  intros [Hr _]. split; [exact Hr|]. intros Hne. now destruct Hne.
Qed.

Lemma getTimestamp_consistent (now v : Z) (c c' : t) :
  getTimestamp now c = Ok (v, c') -> consistent c -> consistent c'.
Proof.
  unfold getTimestamp, consistent.
  destruct (_serverTime c) eqn:Hs; [|discriminate].
  intros Heq. inversion Heq; subst. simpl. auto.
Qed.

Lemma run_consistent (calls : list call) :
  forall c, consistent c -> consistent (snd (run calls c)).
Proof.
  induction calls as [|[now|probe|probe| | |] calls IH]; intros c Hc; simpl.
  - exact Hc.
  - destruct (getTimestamp now c) as [[v c']|m] eqn:Hget; [|now apply IH].
    specialize (IH c' (getTimestamp_consistent now v c c' Hget Hc)).
    now destruct (run calls c').
  - apply IH. now apply timerFires_consistent.
  - apply IH. apply start_consistent.
  - apply IH. unfold consistent. simpl. auto.
  - apply IH. now apply timerFiresRejected_consistent.
  - apply IH. unfold consistent. simpl. auto.
Qed.

(** X4. Whatever is called on a clock, one call after the end of the
    other (reads, timer callbacks that are answered or fail, [start]
    that is answered or fails, [stop]): a clock that is not running has
    no timeout pending and counts no retries; a running clock never
    counts more than six retries in a row, and a timeout is pending only
    while it counts at most five. *)
Theorem clock_stays_consistent (calls : list call) (c : t) :
  consistent c -> consistent (after calls c).
Proof. apply run_consistent. Qed.

Lemma clock_stays_consistent_witness :
  consistent
    (after [ Start (mkServerTimeOffset 50 1050 1000 (20 # 1));
             TimerFires (mkServerTimeOffset 50 1050 1000 (30 # 1));
             GetTimestamp 1000;
             TimerFiresRejected;
             Stop;
             TimerFires (mkServerTimeOffset 10 1010 1000 (4 # 1));
             StartRejected ]
           create).
Proof.
  apply (clock_stays_consistent
           [ Start (mkServerTimeOffset 50 1050 1000 (20 # 1));
             TimerFires (mkServerTimeOffset 50 1050 1000 (30 # 1));
             GetTimestamp 1000;
             TimerFiresRejected;
             Stop;
             TimerFires (mkServerTimeOffset 10 1010 1000 (4 # 1));
             StartRejected ]
           create).
  split; reflexivity.
Defined.

Lemma feed_stopped (probes : list IServerTimeOffset) (c : t) :
  _syncTimer c = None -> feed probes c = c.
Proof.
  intros Hnone. induction probes as [|probe probes IH]; [reflexivity|].
  change (feed (probe :: probes) c) with (feed probes (timerFires probe c)).
  unfold timerFires. now rewrite Hnone.
Qed.

(** [c] holds an estimate that was among the probes [seen] and whose
    latency none of them undercuts. *)
Lemma improveAccuracy_best (seen : list IServerTimeOffset)
      (probe best : IServerTimeOffset) (c : t) :
  _serverTime c = Some best ->
  In best seen ->
  Forall (fun p => (requestLatency best <= requestLatency p)%Q) seen ->
  exists best',
    _serverTime (improveAccuracy probe c) = Some best' /\
    In best' (seen ++ [probe]) /\
    Forall (fun p => (requestLatency best' <= requestLatency p)%Q)
           (seen ++ [probe]).
Proof.
  intros Hs Hin Hall. rewrite improveAccuracy_adopts, Hs.
  destruct (Qlt_le_dec (requestLatency probe) (requestLatency best))
    as [Hlt|Hle].
  - exists probe. split; [reflexivity|].
    split; [apply in_or_app; right; now left|].
    apply Forall_app. split.
    + eapply Forall_impl; [|exact Hall]. simpl. intros p Hp.
      apply Qle_trans with (requestLatency best); [|exact Hp].
      now apply Qlt_le_weak.
    + constructor; [apply Qle_refl|constructor].
  - exists best. split; [reflexivity|].
    split; [apply in_or_app; now left|].
    apply Forall_app. split; [exact Hall|].
    constructor; [exact Hle|constructor].
Qed.

Lemma feed_best (probes : list IServerTimeOffset) :
  forall (seen : list IServerTimeOffset) (best : IServerTimeOffset) (c : t),
    _serverTime c = Some best ->
    In best seen ->
    Forall (fun p => (requestLatency best <= requestLatency p)%Q) seen ->
    _syncTimer (feed probes c) <> None ->
    exists best',
      _serverTime (feed probes c) = Some best' /\
      In best' (seen ++ probes) /\
      Forall (fun p => (requestLatency best' <= requestLatency p)%Q)
             (seen ++ probes).
Proof.
  induction probes as [|probe probes IH]; intros seen best c Hs Hin Hall Hrun.
  - rewrite app_nil_r. exists best. auto.
  - change (feed (probe :: probes) c)
      with (feed probes (timerFires probe c)) in *.
    unfold timerFires in *.
    destruct (_syncTimer c) eqn:Ht.
    + destruct (improveAccuracy_best seen probe best c Hs Hin Hall)
        as (best' & Hs' & Hin' & Hall').
      destruct (IH (seen ++ [probe]) best' _ Hs' Hin' Hall' Hrun)
        as (final & Hf & Hfin & Hfall).
      rewrite <- app_assoc in Hfin, Hfall.
      exists final. auto.
    + rewrite (feed_stopped probes c Ht) in Hrun. contradiction.
Qed.

(** X5. As long as sampling has not stopped since [start], the estimate
    the clock holds is one of the probes it received, and none of the
    probes it received had a lower latency. *)
Theorem clock_holds_lowest_latency (first : IServerTimeOffset)
        (probes : list IServerTimeOffset) (c : t) :
  _syncTimer (feed probes (start first c)) <> None ->
  exists best,
    _serverTime (feed probes (start first c)) = Some best /\
    In best (first :: probes) /\
    Forall (fun p => (requestLatency best <= requestLatency p)%Q)
           (first :: probes).
Proof.
  intros Hrun.
  apply (feed_best probes [first] first (start first c)); auto.
  - now left.
  - constructor; [apply Qle_refl|constructor].
Qed.

Lemma clock_holds_lowest_latency_witness :
  exists best,
    _serverTime
      (feed [ mkServerTimeOffset 3 1003 1000 (30 # 1);
              mkServerTimeOffset 4 1004 1000 (8 # 1);
              mkServerTimeOffset 5 1005 1000 (8 # 1) ]
            (start (mkServerTimeOffset 2 1002 1000 (20 # 1)) create))
    = Some best /\
    In best [ mkServerTimeOffset 2 1002 1000 (20 # 1);
              mkServerTimeOffset 3 1003 1000 (30 # 1);
              mkServerTimeOffset 4 1004 1000 (8 # 1);
              mkServerTimeOffset 5 1005 1000 (8 # 1) ] /\
    Forall (fun p => (requestLatency best <= requestLatency p)%Q)
           [ mkServerTimeOffset 2 1002 1000 (20 # 1);
             mkServerTimeOffset 3 1003 1000 (30 # 1);
             mkServerTimeOffset 4 1004 1000 (8 # 1);
             mkServerTimeOffset 5 1005 1000 (8 # 1) ].
Proof.
  apply (clock_holds_lowest_latency
           (mkServerTimeOffset 2 1002 1000 (20 # 1))
           [ mkServerTimeOffset 3 1003 1000 (30 # 1);
             mkServerTimeOffset 4 1004 1000 (8 # 1);
             mkServerTimeOffset 5 1005 1000 (8 # 1) ]
           create).
  vm_compute. discriminate.
Defined.


Lemma getTimestamp_start (probe : IServerTimeOffset) (now : Z) (c : t) :
  exists c',
    getTimestamp now (start probe c)
      = Ok (Z.max (now + offset probe) (_lastTimeSent c + 1), c') /\
    _lastTimeSent c' = Z.max (now + offset probe) (_lastTimeSent c + 1).
Proof. eexists. split; reflexivity. Qed.

(** X7. A clock started on an answered probe whose measured round
    trip (the host's difference of the two readings of
    [performance.now()]) is not negative has as error bound half that
    round trip, rounded down, which is not negative; read [elapsed]
    milliseconds of local time after the answer arrived, it returns the
    time the host reported plus that bound plus [elapsed], unless the
    last timestamp sent forces a greater value. *)
Theorem started_clock_reads_server_time
        (subtract : Q -> Q -> Q) (startCall endCall : Q)
        (ntpTimeInUTC now elapsed : Z) (c : t) :
  (0 <= subtract endCall startCall)%Q ->
  let half := Qfloor (subtract endCall startCall / 2) in
  let c1 :=
    start (getSessionTimeOffset subtract startCall endCall ntpTimeInUTC now)
          c in
  0 <= half /\
  getMaxTimestampError c1 = Ok half /\
  exists c2,
    getTimestamp (now + elapsed) c1
      = Ok (Z.max (ntpTimeInUTC + half + elapsed) (_lastTimeSent c + 1), c2) /\
    _lastTimeSent c2
      = Z.max (ntpTimeInUTC + half + elapsed) (_lastTimeSent c + 1).
Proof.
  intros Hle half c1. split.
  - change 0 with (Qfloor 0). apply Qfloor_resp_le.
    apply Qle_shift_div_l; [reflexivity|].
    now rewrite Qmult_0_l.
  - split; [reflexivity|].
    destruct (getTimestamp_start
                (getSessionTimeOffset subtract startCall endCall
                                      ntpTimeInUTC now)
                (now + elapsed) c) as (c2 & Hget & Hlast).
    change (offset (getSessionTimeOffset subtract startCall endCall
                                         ntpTimeInUTC now))
      with (ntpTimeInUTC + half - now) in Hget, Hlast.
    replace (now + elapsed + (ntpTimeInUTC + half - now))
      with (ntpTimeInUTC + half + elapsed) in Hget, Hlast by lia.
    exists c2. split; assumption.
Qed.

(** Readings of 100 and 125, whose difference the host computes
    exactly. *)
Lemma started_clock_reads_server_time_witness :
  getMaxTimestampError
    (start (getSessionTimeOffset Qminus (100 # 1) (125 # 1) 5000 4000) create)
  = Ok 12 /\
  exists c2,
    getTimestamp (4000 + 30)
      (start (getSessionTimeOffset Qminus (100 # 1) (125 # 1) 5000 4000)
             create)
    = Ok (5042, c2) /\ _lastTimeSent c2 = 5042.
Proof.
  destruct (started_clock_reads_server_time
              Qminus (100 # 1) (125 # 1) 5000 4000 30 create)
    as (_ & Herr & c2 & Hget & Hlast).
  - vm_compute. discriminate.
  - split; [exact Herr|]. exists c2. split; [exact Hget|exact Hlast].
Defined.

Lemma sorted_split_lt (before between rest : list Z) (a b : Z) :
  StronglySorted Z.lt (before ++ a :: between ++ b :: rest) -> a < b.
Proof.
  induction before as [|x before IH]; simpl; intros Hs.
  - apply StronglySorted_inv in Hs as [_ Hall].
    rewrite Forall_forall in Hall. apply Hall.
    apply in_or_app. right. now left.
  - apply StronglySorted_inv in Hs as [Hs _]. auto.
Qed.

Section Stamps.

Context `{Collation}.

(** X17. Two events stamped by the same clock are ordered by
    [isNewer] as they were stamped: with the default debounce period the
    event with the later stamp replaces the one with the earlier stamp,
    whatever their client ids, and never the other way round. *)
Theorem stamped_events_replace_in_order
        (calls : list call) (c : t) (before between rest : list Z)
        (earlier later : Z) (sender sender' : option string) :
  fst (run calls c) = before ++ earlier :: between ++ later :: rest ->
  LiveEvent.isNewer (Some (LiveEvent.mkClientTimestamp earlier sender))
                    (LiveEvent.mkClientTimestamp later sender') 0 = true /\
  LiveEvent.isNewer (Some (LiveEvent.mkClientTimestamp later sender'))
                    (LiveEvent.mkClientTimestamp earlier sender) 0 = false.
Proof.
  intros Hrun.
  assert (earlier < later) as Hlt.
  { apply (sorted_split_lt before between rest).
    rewrite <- Hrun. apply run_above. }
  split.
  - apply LiveEventProps.isNewer_spec. simpl. lia.
  - apply LiveEventProps.isNewer_false.
    rewrite LiveEventProps.isNewer_spec. simpl. lia.
Qed.

End Stamps.

Lemma stamped_events_replace_in_order_witness :
  LiveEvent.isNewer (Some (LiveEvent.mkClientTimestamp 1050 (Some "a")))
                    (LiveEvent.mkClientTimestamp 1052 (Some "b")) 0 = true /\
  LiveEvent.isNewer (Some (LiveEvent.mkClientTimestamp 1052 (Some "b")))
                    (LiveEvent.mkClientTimestamp 1050 (Some "a")) 0 = false.
Proof.
  apply (stamped_events_replace_in_order
           [ Start (mkServerTimeOffset 50 1050 1000 (20 # 1));
             GetTimestamp 1000;
             TimerFires (mkServerTimeOffset 10 1010 1000 (4 # 1));
             GetTimestamp 1000;
             GetTimestamp 990 ]
           create [] [1051] [] 1050 1052 (Some "a") (Some "b")).
  reflexivity.
Defined.

End SharedClockMore.

(** ** LivePresence *)

Module LivePresenceMore.

Import LivePresence LivePresenceProps.

Section Roster.

Context {TData : Type} {TI : Type} `{TimeInterval TI} `{Collation}.

Abbreviation Event := (ILivePresenceEvent TData).
Abbreviation User := (LivePresenceUser TData).
Abbreviation Presence := (t TData TI).

Implicit Types (evt : Event) (user newUser : User) (users : list User)
         (p : Presence).

Lemma scanFrom_length users evt newUser :
  (List.length users <= List.length (fst (scanFrom users evt newUser))
   <= S (List.length users))%nat.
Proof.
  induction users as [|current rest IH]; simpl; [lia|].
  destruct (localeCompare (userId evt) (userIdOf current) =? 0).
  - destruct (updateReceived current evt). simpl. lia.
  - destruct (localeCompare (userId evt) (userIdOf current) >? 0);
      [simpl; lia|].
    destruct (scanFrom rest evt newUser). simpl in *. lia.
Qed.

Lemma updateMembersList_length evt local p :
  (List.length (_users p)
   <= List.length (_users (fst (updateMembersList evt local p)))
   <= S (List.length (_users p)))%nat.
Proof. rewrite updateMembersList_scan. apply scanFrom_length. Qed.

Lemma updateMembersList_fields evt local p :
  let p' := fst (updateMembersList evt local p) in
  _expirationPeriod p' = _expirationPeriod p /\
  _currentPresence p' = _currentPresence p /\
  _scope p' = _scope p.
Proof. rewrite updateMembersList_scan. simpl. auto. Qed.

Lemma mergeAll_cons evt local (evts : list (Event * bool)) p :
  fst (mergeAll ((evt, local) :: evts) p)
  = fst (mergeAll evts (fst (updateMembersList evt local p))).
Proof.
  cbn [mergeAll]. destruct (updateMembersList evt local p) as [p1 out1].
  cbn [fst]. now destruct (mergeAll evts p1).
Qed.

Lemma updateReceived_isLocalUser user evt :
  _isLocalUser (fst (updateReceived user evt)) = _isLocalUser user.
Proof. unfold updateReceived. now destruct (LiveEvent.isNewer _ _ _). Qed.

Lemma fold_count (keep : User -> bool) users :
  forall cnt,
    fold_left (fun cnt user => if keep user then cnt + 1 else cnt) users cnt
    = cnt + Z.of_nat (List.length (List.filter keep users)).
Proof.
  induction users as [|user users IH]; intros cnt; simpl; [lia|].
  rewrite IH. destruct (keep user); simpl List.length; lia.
Qed.

(** X13. [getCount] returns the number of users [forEach] calls back
    for under the same filter and at the same time. *)
Theorem getCount_counts_forEach (filter : option PresenceState) (now : Z) p :
  exists visited,
    enumerated filter now p = Ok visited /\
    getCount filter now p = Ok (Z.of_nat (List.length visited)).
Proof.
  eexists. split; [apply enumerated_filter|].
  destruct filter as [wanted|]; simpl.
  - now rewrite fold_count.
  - do 2 f_equal. induction (_users p) as [|user users IH]; simpl; congruence.
Qed.

(** X14. Counted at one and the same time, every tracked user falls
    under exactly one presence state: the counts for [online], [away]
    and [offline] taken at the time [now] add up to the count without a
    filter. *)
Theorem getCount_partitions (now : Z) p :
  exists n_online n_away n_offline total,
    getCount (Some online) now p = Ok n_online /\
    getCount (Some away) now p = Ok n_away /\
    getCount (Some offline) now p = Ok n_offline /\
    getCount None now p = Ok total /\
    n_online + n_away + n_offline = total.
Proof.
  unfold getCount. rewrite !fold_count. do 4 eexists.
  do 4 (split; [reflexivity|]).
  induction (_users p) as [|user users IH]; [reflexivity|].
  cbn [List.filter].
  destruct (stateOf (_expirationPeriod p) now user);
    cbn [PresenceState_eqb List.length]; rewrite !Nat2Z.inj_succ; lia.
Qed.

End Roster.

Section OrderedRoster.

Context {TData : Type} {TI : Type} `{TimeInterval TI} `{CollationLaws}.

Abbreviation Event := (ILivePresenceEvent TData).
Abbreviation User := (LivePresenceUser TData).
Abbreviation Presence := (t TData TI).

Implicit Types (evt : Event) (user newUser : User) (users : list User)
         (p : Presence).

(** The test of [getPresenceForUser]. *)
Abbreviation hasId id := (fun user : User => String.eqb (userIdOf user) id).

(** The scan leaves alone what a search finds that passes over the users
    whose id collates equal with that of the record. *)
Lemma scanFrom_find_kept (f : User -> bool) users evt newUser :
  userIdOf newUser = userId evt ->
  (forall user,
      localeCompare (userId evt) (userIdOf user) = 0 -> f user = false) ->
  find f (fst (scanFrom users evt newUser)) = find f users.
Proof.
  intros Hnew Hmiss.
  assert (f newUser = false) as Hnone.
  { apply Hmiss. rewrite Hnew. apply localeCompare_refl. }
  induction users as [|current rest IH]; simpl.
  - now rewrite Hnone.
  - scan_cases evt current.
    + pose proof (updateReceived_collates current evt Hzero) as Hsame.
      destruct (updateReceived current evt) as [current' changed].
      simpl in *. now rewrite (Hmiss current' Hsame), (Hmiss current Hzero).
    + simpl. now rewrite Hnone.
    + destruct (scanFrom rest evt newUser) as [rest' emitted].
      simpl in *. now rewrite IH.
Qed.

(** X8. Merging records never disturbs the users of other user ids: the
    lookup of a user id returns after the merges what it returned
    before, when none of the merged records carries a user id that
    collates equal with it. *)
Theorem merge_leaves_other_users (evts : list (Event * bool)) (id : string) :
  forall p,
    Forall (fun e => localeCompare (userId (fst e)) id <> 0) evts ->
    getPresenceForUser id (fst (mergeAll evts p)) = getPresenceForUser id p.
Proof.
  induction evts as [|[evt local] evts IH]; intros p Hall; [reflexivity|].
  apply Forall_cons_iff in Hall as [Hevt Hall]. simpl in Hevt.
  rewrite mergeAll_cons, IH by assumption.
  unfold getPresenceForUser. f_equal.
  rewrite updateMembersList_scan. simpl.
  apply scanFrom_find_kept; [reflexivity|].
  intros user Hclass. apply String.eqb_neq. intros Heq.
  apply Hevt. now rewrite <- Heq.
Qed.

(** After the scan the roster holds a user whose id collates equal with
    that of the record and whose record the record would not replace;
    when a change is emitted it is for that user, which then holds the
    record and is what the lookup of the user id of the record finds. *)
Lemma scanFrom_lookup users evt newUser :
  _evt newUser = evt ->
  exists user,
    In user (fst (scanFrom users evt newUser)) /\
    localeCompare (userId evt) (userIdOf user) = 0 /\
    LiveEvent.isNewer (Some (asClientTimestamp (_evt user)))
                      (asClientTimestamp evt) 0 = false /\
    (forall emitted,
        snd (scanFrom users evt newUser) = Some emitted ->
        emitted = user /\ _evt user = evt /\
        find (hasId (userId evt)) (fst (scanFrom users evt newUser))
          = Some user).
Proof.
  intros Hnew.
  assert (userIdOf newUser = userId evt) as Hid
      by (unfold userIdOf; now rewrite Hnew).
  assert (hasId (userId evt) newUser = true) as Hhit
      by now apply String.eqb_eq.
  assert (LiveEvent.isNewer (Some (asClientTimestamp (_evt newUser)))
                            (asClientTimestamp evt) 0 = false) as Hself
      by (rewrite Hnew; apply LiveEventProps.isNewer_irrefl).
  assert (localeCompare (userId evt) (userIdOf newUser) = 0) as Hclass
      by (rewrite Hid; apply localeCompare_refl).
  induction users as [|current rest IH]; simpl.
  - rewrite Hhit. exists newUser. repeat split; auto; congruence.
  - scan_cases evt current.
    + unfold updateReceived.
      destruct (LiveEvent.isNewer (Some (asClientTimestamp (_evt current)))
                                  (asClientTimestamp evt) 0) eqn:Hnewer;
        simpl.
      * unfold userIdOf at 2. simpl. rewrite String.eqb_refl.
        eexists. split; [left; reflexivity|]. unfold userIdOf. simpl.
        split; [apply localeCompare_refl|].
        split; [apply LiveEventProps.isNewer_irrefl|].
        intros emitted Hemit. inversion Hemit; subst. auto.
      * exists current. repeat split; auto; discriminate.
    + simpl. rewrite Hhit. exists newUser. repeat split; auto; congruence.
    + destruct IH as (user & Hin & Huid & Hold & Hemit).
      destruct (scanFrom rest evt newUser) as [rest' emitted].
      simpl in *.
      assert (hasId (userId evt) current = false) as Hmiss.
      { apply String.eqb_neq. intros Heq.
        rewrite Heq, localeCompare_refl in Hnz. now destruct Hnz. }
      rewrite Hmiss. exists user.
      split; [now right|]. split; [exact Huid|]. split; [exact Hold|exact Hemit].
Qed.

(** X9. After a record is merged, the roster holds a user whose id
    collates equal with the user id of the record and whose record the
    merged one would not replace; when the merge notified a change, it
    is that user the notification names, the user holds the merged
    record, and the lookup of the user id of the record finds it. *)
Theorem lookup_after_merge evt (local : bool) p :
  let merged := updateMembersList evt local p in
  exists user,
    In user (_users (fst merged)) /\
    localeCompare (userId evt) (userIdOf user) = 0 /\
    LiveEvent.isNewer (Some (asClientTimestamp (_evt user)))
                      (asClientTimestamp evt) 0 = false /\
    (snd merged <> [] ->
     _evt user = evt /\
     snd merged = emitEvent evt local user /\
     getPresenceForUser (userId evt) (fst merged) = Ok (Some user)).
Proof.
  intros merged. subst merged. rewrite updateMembersList_scan.
  cbv zeta. cbn [fst snd]. unfold getPresenceForUser. cbn [_users].
  match goal with
  | |- context [scanFrom (_users p) evt ?n] => set (newUser := n)
  end.
  destruct (scanFrom_lookup (_users p) evt newUser eq_refl)
    as (user & Hin & Hid & Hold & Hemit).
  exists user. repeat split; auto;
    (destruct (snd (scanFrom (_users p) evt newUser)) as [emitted|];
     [|contradiction]);
    destruct (Hemit emitted eq_refl) as (-> & Hevt & Hfind); auto.
  now rewrite Hfind.
Qed.

Lemma scanFrom_keeps_class users evt newUser user :
  In user users ->
  exists user',
    In user' (fst (scanFrom users evt newUser)) /\
    localeCompare (userIdOf user) (userIdOf user') = 0.
Proof.
  induction users as [|current rest IH]; simpl; [tauto|].
  intros Hin. scan_cases evt current.
  - pose proof (updateReceived_collates current evt Hzero) as Hsame.
    destruct (updateReceived current evt) as [current' changed].
    simpl in *. destruct Hin as [<-|Hin].
    + exists current'. split; [now left|].
      apply localeCompare_zero_trans with (userId evt); [|exact Hsame].
      now apply localeCompare_zero_sym.
    + exists user. split; [now right|apply localeCompare_refl].
  - exists user. simpl. split; [now right|apply localeCompare_refl].
  - destruct Hin as [<-|Hin].
    + exists current.
      destruct (scanFrom rest evt newUser). simpl.
      split; [now left|apply localeCompare_refl].
    + destruct (IH Hin) as (user' & Hin' & Hclass).
      destruct (scanFrom rest evt newUser). simpl in *.
      exists user'. auto.
Qed.

Lemma updateMembersList_keeps_class evt local p user :
  In user (_users p) ->
  exists user',
    In user' (_users (fst (updateMembersList evt local p))) /\
    localeCompare (userIdOf user) (userIdOf user') = 0.
Proof. rewrite updateMembersList_scan. apply scanFrom_keeps_class. Qed.

(** X10. Merging never drops a user: for every user tracked before a
    sequence of merges a user whose id collates equal is tracked after
    it, and the number of users [getCount] reports without a filter
    grows by at most one per merged record and never shrinks. *)
Theorem merge_never_removes (evts : list (Event * bool)) (now : Z) :
  forall p,
    let p' := fst (mergeAll evts p) in
    (forall user,
        In user (_users p) ->
        exists user',
          In user' (_users p') /\
          localeCompare (userIdOf user) (userIdOf user') = 0) /\
    exists n n',
      getCount None now p = Ok n /\ getCount None now p' = Ok n' /\
      n <= n' <= n + Z.of_nat (List.length evts).
Proof.
  induction evts as [|[evt local] evts IH]; intros p p'.
  - split.
    + intros user Hin. exists user. split; [exact Hin|apply localeCompare_refl].
    + exists (Z.of_nat (List.length (_users p))),
             (Z.of_nat (List.length (_users p))).
      repeat split; simpl; lia.
  - subst p'. rewrite mergeAll_cons.
    destruct (IH (fst (updateMembersList evt local p)))
      as (Hkept & n1 & n2 & Hn1 & Hn2 & Hle).
    unfold getCount in Hn1. inversion Hn1; subst n1. clear Hn1.
    pose proof (updateMembersList_length evt local p) as Hlen.
    split.
    + intros user Hin.
      destruct (updateMembersList_keeps_class evt local p user Hin)
        as (user1 & Hin1 & Hclass1).
      destruct (Hkept user1 Hin1) as (user2 & Hin2 & Hclass2).
      exists user2. split; [exact Hin2|].
      now apply localeCompare_zero_trans with (userIdOf user1).
    + exists (Z.of_nat (List.length (_users p))), n2.
      split; [reflexivity|]. split; [exact Hn2|].
      simpl List.length. lia.
Qed.

Lemma scanFrom_stale users evt newUser user :
  descending users ->
  In user users ->
  localeCompare (userId evt) (userIdOf user) = 0 ->
  LiveEvent.isNewer (Some (asClientTimestamp (_evt user)))
                    (asClientTimestamp evt) 0 = false ->
  scanFrom users evt newUser = (users, None).
Proof.
  intros Hdesc Hin Hid Hold.
  induction users as [|current rest IH]; [destruct Hin|].
  apply descending_cons in Hdesc as [Hrest Hall].
  rewrite Forall_forall in Hall. simpl.
  destruct Hin as [-> |Hin].
  - rewrite Hid. simpl. unfold updateReceived. now rewrite Hold.
  - specialize (Hall user Hin).
    assert (localeCompare (userId evt) (userIdOf current) < 0) as Hlt.
    { apply localeCompare_neg.
      apply localeCompare_pos_zero with (userIdOf user); [exact Hall|].
      now apply localeCompare_zero_sym. }
    scan_cases evt current; try lia.
    now rewrite (IH Hrest Hin).
Qed.

(** X11. On a roster listed in descending order, a record that is not
    newer than the one the roster holds for its user (an older one, a
    repeated one, one from a client id that loses the tie) changes
    nothing: the object is left as it was and no notification is
    emitted. *)
Theorem stale_record_is_ignored evt (local : bool) p user :
  descending (_users p) ->
  In user (_users p) ->
  localeCompare (userId evt) (userIdOf user) = 0 ->
  LiveEvent.isNewer (Some (asClientTimestamp (_evt user)))
                    (asClientTimestamp evt) 0 = false ->
  updateMembersList evt local p = (p, []).
Proof.
  intros Hdesc Hin Hid Hold. unfold updateMembersList.
  rewrite (scanFrom_stale _ evt _ user Hdesc Hin Hid Hold).
  now destruct p.
Qed.

Lemma find_above users evt :
  Forall (fun user => localeCompare (userId evt) (userIdOf user) > 0) users ->
  find (collatesWith evt) users = None.
Proof.
  induction 1 as [|user users Hgt _ IH]; [reflexivity|]. simpl.
  unfold collatesWith at 1.
  destruct (Z.eqb_spec (localeCompare (userId evt) (userIdOf user)) 0);
    [lia|exact IH].
Qed.

Lemma mergedUser_collates users evt newUser :
  userIdOf newUser = userId evt ->
  localeCompare (userId evt) (userIdOf (mergedUser users evt newUser)) = 0.
Proof.
  intros Hnew. unfold mergedUser.
  destruct (find _ users) as [old|] eqn:Hfind.
  - apply find_some in Hfind as [_ Hid]. apply Z.eqb_eq in Hid.
    now apply updateReceived_collates.
  - rewrite Hnew. apply localeCompare_refl.
Qed.

(** The users after a scan of a descending list: those whose id does not
    collate equal with that of the record, and the merged user. *)
Lemma scanFrom_members users evt newUser :
  descending users ->
  forall user,
    In user (fst (scanFrom users evt newUser)) <->
    (In user users /\ localeCompare (userId evt) (userIdOf user) <> 0) \/
    user = mergedUser users evt newUser.
Proof.
  unfold mergedUser.
  induction users as [|current rest IH]; intros Hdesc user; simpl.
  - intuition auto.
  - apply descending_cons in Hdesc as [Hrest Hall].
    assert (forall other,
               In other rest ->
               localeCompare (userIdOf current) (userIdOf other) > 0)
      as Hbelow by now apply Forall_forall.
    unfold collatesWith at 1.
    scan_cases evt current.
    + destruct (updateReceived current evt) as [current' changed]. simpl.
      split.
      * intros [<-|Hin]; [now right|]. left. split; [now right|].
        specialize (Hbelow _ Hin).
        pose proof (localeCompare_zero_pos _ _ _ Hzero Hbelow). lia.
      * intros [[[<-|Hin] Hne]| ->]; auto. now destruct Hne.
    + assert (Forall (fun other =>
                        localeCompare (userId evt) (userIdOf other) > 0)
                     rest) as Hrest_below.
      { apply Forall_forall. intros other Hin.
        apply localeCompare_pos_trans with (userIdOf current);
          [lia|now apply Hbelow]. }
      rewrite (find_above rest evt Hrest_below). simpl.
      split.
      * intros [<-|[<-|Hin]]; [now right|left; split; auto|].
        left. split; [now right|].
        rewrite Forall_forall in Hrest_below.
        specialize (Hrest_below _ Hin). lia.
      * intros [[Hin _]| ->]; auto.
    + specialize (IH Hrest user).
      destruct (scanFrom rest evt newUser) as [rest' emitted].
      simpl in *. rewrite IH. split.
      * intros [<-|[[Hin Hne]| ->]]; auto.
      * intros [[[<-|Hin] Hne]| ->]; auto.
Qed.

(** Two descending lists with the same users are the same list. *)
Lemma descending_ext users :
  forall users',
    descending users -> descending users' ->
    (forall user, In user users <-> In user users') ->
    users = users'.
Proof.
  assert (forall a (l : list User),
             descending (a :: l) -> ~ In a l) as Hfresh.
  { intros a l Hd Hin. apply descending_cons in Hd as [_ Hall].
    rewrite Forall_forall in Hall. specialize (Hall a Hin).
    rewrite localeCompare_refl in Hall. lia. }
  induction users as [|a rest IH]; intros [|b rest'] Hd Hd' Hsame.
  - reflexivity.
  - destruct (proj2 (Hsame b) (or_introl eq_refl)).
  - destruct (proj1 (Hsame a) (or_introl eq_refl)).
  - assert (a = b) as ->.
    { destruct (proj1 (Hsame a) (or_introl eq_refl)) as [Heq|Hin_a]; auto.
      destruct (proj2 (Hsame b) (or_introl eq_refl)) as [Heq|Hin_b]; auto.
      apply descending_cons in Hd as [_ Hall], Hd' as [_ Hall'].
      rewrite Forall_forall in Hall, Hall'.
      pose proof (localeCompare_pos_trans _ _ _ (Hall _ Hin_b) (Hall' _ Hin_a))
        as Hloop.
      rewrite localeCompare_refl in Hloop. lia. }
    f_equal. apply IH.
    + now apply descending_cons in Hd.
    + now apply descending_cons in Hd'.
    + intros user. split; intros Hin.
      * destruct (proj1 (Hsame user) (or_intror Hin)) as [<-|]; auto.
        destruct (Hfresh _ _ Hd Hin).
      * destruct (proj2 (Hsame user) (or_intror Hin)) as [<-|]; auto.
        destruct (Hfresh _ _ Hd' Hin).
Qed.

Lemma mergedUser_after_other users evt1 new1 evt2 new2 :
  userIdOf new1 = userId evt1 ->
  localeCompare (userId evt1) (userId evt2) <> 0 ->
  mergedUser (fst (scanFrom users evt1 new1)) evt2 new2
  = mergedUser users evt2 new2.
Proof.
  intros Hid1 Hne. unfold mergedUser.
  rewrite (scanFrom_find_kept (collatesWith evt2) users evt1 new1 Hid1);
    [reflexivity|].
  intros user Hclass. unfold collatesWith. apply Z.eqb_neq. intros Hclass2.
  apply Hne. apply localeCompare_zero_trans with (userIdOf user);
    [exact Hclass|now apply localeCompare_zero_sym].
Qed.

Lemma scanFrom_commute users evt1 new1 evt2 new2 :
  descending users ->
  userIdOf new1 = userId evt1 ->
  userIdOf new2 = userId evt2 ->
  localeCompare (userId evt1) (userId evt2) <> 0 ->
  fst (scanFrom (fst (scanFrom users evt1 new1)) evt2 new2)
  = fst (scanFrom (fst (scanFrom users evt2 new2)) evt1 new1).
Proof.
  intros Hdesc Hid1 Hid2 Hne.
  assert (localeCompare (userId evt2) (userId evt1) <> 0) as Hne'.
  { intros Hz. apply Hne. now apply localeCompare_zero_sym. }
  pose proof (scanFrom_descending users evt1 new1 Hid1 Hdesc) as Hd1.
  pose proof (scanFrom_descending users evt2 new2 Hid2 Hdesc) as Hd2.
  apply descending_ext; try now apply scanFrom_descending.
  intros user.
  rewrite (scanFrom_members _ evt2 new2 Hd1 user).
  rewrite (scanFrom_members _ evt1 new1 Hd2 user).
  rewrite (scanFrom_members users evt1 new1 Hdesc user).
  rewrite (scanFrom_members users evt2 new2 Hdesc user).
  rewrite (mergedUser_after_other users evt1 new1 evt2 new2 Hid1 Hne).
  rewrite (mergedUser_after_other users evt2 new2 evt1 new1 Hid2 Hne').
  pose proof (mergedUser_collates users evt1 new1 Hid1) as Hm1.
  pose proof (mergedUser_collates users evt2 new2 Hid2) as Hm2.
  assert (localeCompare (userId evt2)
                        (userIdOf (mergedUser users evt1 new1)) <> 0) as N21.
  { intros Hz. apply Hne.
    apply localeCompare_zero_trans with (userIdOf (mergedUser users evt1 new1));
      [exact Hm1|now apply localeCompare_zero_sym]. }
  assert (localeCompare (userId evt1)
                        (userIdOf (mergedUser users evt2 new2)) <> 0) as N12.
  { intros Hz. apply Hne'.
    apply localeCompare_zero_trans with (userIdOf (mergedUser users evt2 new2));
      [exact Hm2|now apply localeCompare_zero_sym]. }
  split.
  - intros [[[[Hin N1]| ->] N2]| ->].
    + left. split; [left; split; assumption|assumption].
    + right. reflexivity.
    + left. split; [now right|assumption].
  - intros [[[[Hin N2]| ->] N1]| ->].
    + left. split; [left; split; assumption|assumption].
    + right. reflexivity.
    + left. split; [now right|assumption].
Qed.

Lemma updateMembersList_commute evt1 (local1 : bool) evt2 (local2 : bool) p :
  descending (_users p) ->
  localeCompare (userId evt1) (userId evt2) <> 0 ->
  fst (updateMembersList evt2 local2 (fst (updateMembersList evt1 local1 p)))
  = fst (updateMembersList evt1 local1 (fst (updateMembersList evt2 local2 p))).
Proof.
  intros Hdesc Hne. rewrite !updateMembersList_scan. simpl. f_equal.
  now apply scanFrom_commute.
Qed.

Lemma oneRecordPerUser_tail (e : Event * bool) evts :
  oneRecordPerUser (e :: evts) ->
  oneRecordPerUser evts /\
  forall e', In e' evts ->
             localeCompare (userId (fst e)) (userId (fst e')) <> 0.
Proof.
  intros [Hnodup Hone]. inversion Hnodup as [|? ? Hnotin Hnodup']; subst.
  split.
  - split; [exact Hnodup'|]. intros e1 e2 Hin1 Hin2. apply Hone; now right.
  - intros e' Hin Hclass. apply Hnotin.
    rewrite (Hone e e' (or_introl eq_refl) (or_intror Hin) Hclass).
    exact Hin.
Qed.

Lemma oneRecordPerUser_perm (evts evts' : list (Event * bool)) :
  Permutation evts evts' -> oneRecordPerUser evts -> oneRecordPerUser evts'.
Proof.
  intros Hperm [Hnodup Hone]. split.
  - eapply Permutation_NoDup; eassumption.
  - intros e1 e2 Hin1 Hin2. apply Hone.
    + eapply Permutation_in; [apply Permutation_sym|]; eassumption.
    + eapply Permutation_in; [apply Permutation_sym|]; eassumption.
Qed.

(** X12. Records of different users can be merged in any order: two
    sequences that merge the same records, no two of them for user ids
    that collate equal, into the same object with a descending roster
    leave the same object, with the same list of users. *)
Theorem merge_order_of_users_is_irrelevant
        (evts evts' : list (Event * bool)) :
  Permutation evts evts' ->
  oneRecordPerUser evts ->
  forall p,
    descending (_users p) ->
    fst (mergeAll evts p) = fst (mergeAll evts' p).
Proof.
  induction 1 as [|[evt local] l l' Hperm IH
                  |[evt2 local2] [evt1 local1] l
                  |l l' l'' Hperm1 IH1 Hperm2 IH2];
    intros Hone p Hdesc.
  - reflexivity.
  - rewrite !mergeAll_cons. apply IH.
    + now apply oneRecordPerUser_tail in Hone.
    + now apply updateMembersList_descending.
  - rewrite !mergeAll_cons. do 2 f_equal.
    apply updateMembersList_commute; [assumption|].
    apply oneRecordPerUser_tail in Hone as [_ Hne].
    apply (Hne (evt2, local2)). now left.
  - rewrite IH1 by assumption. apply IH2; [|assumption].
    now apply (oneRecordPerUser_perm l l').
Qed.

Lemma updateMembersList_flags evt local p :
  descending (_users p) ->
  (exists user,
      In user (_users p) /\
      localeCompare (userIdOf user) (userId (_currentPresence p)) = 0) ->
  flagsLocalUser p -> flagsLocalUser (fst (updateMembersList evt local p)).
Proof.
  intros Hdesc (own & Hown & Hownclass) Hflags user.
  destruct (updateMembersList_fields evt local p) as (_ & Hcur & _).
  simpl in Hcur. rewrite Hcur. clear Hcur.
  rewrite updateMembersList_scan. cbn [fst _users].
  intros Hin. apply scanFrom_members in Hin; [|exact Hdesc].
  destruct Hin as [[Hin _]| ->]; [now apply Hflags|].
  unfold mergedUser.
  destruct (find (collatesWith evt) (_users p)) as [old|] eqn:Hfind.
  - apply find_some in Hfind as [Hold Hclass]. apply Z.eqb_eq in Hclass.
    rewrite updateReceived_isLocalUser, (Hflags old Hold).
    apply localeCompare_zero_left.
    apply localeCompare_zero_trans with (userId evt);
      [now apply localeCompare_zero_sym|].
    now apply updateReceived_collates.
  - unfold userIdOf. simpl. split.
    + intros Heq. apply String.eqb_eq in Heq. rewrite Heq.
      apply localeCompare_refl.
    + intros Hclass. exfalso.
      pose proof (find_none _ _ Hfind own Hown) as Hmiss.
      unfold collatesWith in Hmiss. apply Z.eqb_neq in Hmiss.
      apply Hmiss.
      apply localeCompare_zero_trans with (userId (_currentPresence p));
        [exact Hclass|now apply localeCompare_zero_sym].
Qed.

Lemma updateMembersList_wellFormed evt local p :
  _scope p <> None ->
  wellFormed p -> wellFormed (fst (updateMembersList evt local p)).
Proof.
  intros Hscope (Hdesc & Hflags & Htracked).
  destruct (_scope p) as [scope|] eqn:Hs; [|contradiction].
  split; [now apply updateMembersList_descending|].
  split; [now apply updateMembersList_flags|].
  destruct (updateMembersList_fields evt local p) as (_ & Hcur & Hsc).
  simpl in Hcur, Hsc. rewrite Hsc, Hcur, Hs.
  destruct Htracked as (own & Hown & Hclass).
  destruct (updateMembersList_keeps_class evt local p own Hown)
    as (own' & Hown' & Hclass').
  exists own'. split; [exact Hown'|].
  apply localeCompare_zero_trans with (userIdOf own); [|exact Hclass].
  now apply localeCompare_zero_sym.
Qed.

Lemma step_wellFormed p (o : op TData) :
  wellFormed p -> wellFormed (step p o).
Proof.
  intros Hwf.
  destruct o as [userId' data' state' now guid connected
                |state' data' connected sent|evt|value]; simpl.
  - unfold initialize.
    destruct (_scope p) eqn:Hscope; [exact Hwf|].
    destruct Hwf as (_ & _ & Hempty). rewrite Hscope in Hempty.
    rewrite updateMembersList_scan. simpl. rewrite Hempty. simpl.
    split; [repeat constructor|].
    split.
    + intros user [<-|[]]. unfold userIdOf. simpl.
      rewrite String.eqb_refl, localeCompare_refl. tauto.
    + eexists. split; [now left|]. apply localeCompare_refl.
  - unfold updatePresence.
    destruct (_scope p) eqn:Hscope; [|exact Hwf].
    apply updateMembersList_wellFormed; [simpl; congruence|].
    destruct Hwf as (Hdesc & Hflags & Htracked).
    rewrite Hscope in Htracked.
    split; [exact Hdesc|]. split; [exact Hflags|].
    simpl. exact Htracked.
  - destruct (_scope p) eqn:Hscope; [|exact Hwf].
    apply updateMembersList_wellFormed; [congruence|exact Hwf].
  - exact Hwf.
Qed.

Lemma steps_wellFormed (ops : list (op TData)) :
  forall p, wellFormed p -> wellFormed (steps ops p).
Proof.
  induction ops as [|o ops IH]; intros p Hwf; [exact Hwf|].
  apply (IH (step p o)). now apply step_wellFormed.
Qed.

(** Once initialised, an object stays initialised and keeps its user
    id. *)
Lemma step_identity p (o : op TData) :
  _scope p <> None ->
  _scope (step p o) <> None /\
  userId (_currentPresence (step p o)) = userId (_currentPresence p).
Proof.
  intros Hscope.
  destruct o as [userId' data' state' now guid connected
                |state' data' connected sent|evt|value]; simpl.
  - unfold initialize. destruct (_scope p) eqn:Hs; [|contradiction].
    simpl. split; [congruence|reflexivity].
  - unfold updatePresence. destruct (_scope p) eqn:Hs; [|contradiction].
    match goal with
    | |- context [updateMembersList ?e ?l ?q] =>
        pose proof (updateMembersList_fields e l q) as Hfields;
        destruct (updateMembersList e l q) as [p1 out]
    end.
    simpl in Hfields. destruct Hfields as (_ & Hcur & Hsc).
    rewrite Hcur, Hsc. simpl. split; [congruence|reflexivity].
  - destruct (_scope p) eqn:Hs; [|contradiction].
    destruct (updateMembersList_fields evt false p) as (_ & Hcur & Hsc).
    simpl in Hcur, Hsc. rewrite Hcur, Hsc. split; [congruence|reflexivity].
  - auto.
Qed.

Lemma steps_identity (ops : list (op TData)) :
  forall p,
    _scope p <> None ->
    _scope (steps ops p) <> None /\
    userId (_currentPresence (steps ops p)) = userId (_currentPresence p).
Proof.
  induction ops as [|o ops IH]; intros p Hscope; [auto|].
  destruct (step_identity p o Hscope) as [Hscope' Hid].
  destruct (IH (step p o) Hscope') as [Hfinal Hid'].
  split; [exact Hfinal|]. now rewrite <- Hid.
Qed.

(** X15. Whatever sequence of calls and remote records reaches the
    roster of an object ([initialize], [updatePresence], records
    received, assignments of the expiration period, also calls that
    throw): the users stay listed from the greatest user id down in the
    collation of the host, the users flagged as the local user are
    exactly those whose user id collates equal with the object's own,
    the roster stays empty until [initialize] succeeds and holds such a
    user from then on. *)
Theorem calls_keep_wellFormed (ops : list (op TData)) p :
  wellFormed p -> wellFormed (steps ops p).
Proof. apply steps_wellFormed. Qed.

(** X16. An initialised object stays initialised and keeps its user id
    whatever reaches its roster afterwards, and the roster always holds
    a user, flagged as the local user, whose user id collates equal with
    the object's own. *)
Theorem local_user_stays_tracked (ops : list (op TData)) p :
  wellFormed p ->
  isInitialized p = true ->
  let p' := steps ops p in
  isInitialized p' = true /\
  userId (_currentPresence p') = userId (_currentPresence p) /\
  exists user,
    In user (_users p') /\
    localeCompare (userIdOf user) (userId (_currentPresence p)) = 0 /\
    _isLocalUser user = true.
Proof.
  unfold isInitialized. intros Hwf Hinit. set (p' := steps ops p).
  assert (_scope p <> None) as Hscope
      by (destruct (_scope p); [discriminate|discriminate]).
  destruct (steps_identity ops p Hscope) as [Hscope' Hid].
  destruct (steps_wellFormed ops p Hwf) as (_ & Hflags & Htracked).
  fold p' in Hscope', Hid, Hflags, Htracked.
  destruct (_scope p') eqn:Hs; [|contradiction].
  split; [reflexivity|]. split; [exact Hid|].
  destruct Htracked as (user & Hin & Hclass).
  exists user. split; [exact Hin|].
  rewrite <- Hid. split; [exact Hclass|].
  now apply (Hflags user Hin).
Qed.

End OrderedRoster.

Lemma merge_leaves_other_users_witness :
  let p := fst (updateMembersList (plainEvent "a" 100 "c1" online) false
                                  fresh) in
  getPresenceForUser "a"
    (fst (mergeAll [ (plainEvent "b" 101 "c2" online, false);
                     (plainEvent "c" 102 "c3" away, false) ] p))
  = getPresenceForUser "a" p.
Proof.
  apply (merge_leaves_other_users
           [ (plainEvent "b" 101 "c2" online, false);
             (plainEvent "c" 102 "c3" away, false) ] "a").
  repeat constructor; simpl; discriminate.
Defined.

Lemma lookup_after_merge_witness :
  let p := fst (updateMembersList (plainEvent "u1" 90 "c1" online) false
                                  fresh) in
  let evt := plainEvent "u1" 100 "c1" away in
  let merged := updateMembersList evt false p in
  exists user,
    _evt user = evt /\
    snd merged = emitEvent evt false user /\
    getPresenceForUser "u1" (fst merged) = Ok (Some user).
Proof.
  destruct (lookup_after_merge
              (plainEvent "u1" 100 "c1" away) false
              (fst (updateMembersList (plainEvent "u1" 90 "c1" online) false
                                      fresh)))
    as (user & _ & _ & _ & Hemitted).
  exists user. apply Hemitted. discriminate.
Defined.

Lemma merge_never_removes_witness :
  let p := fst (updateMembersList (plainEvent "a" 100 "c1" online) false
                                  fresh) in
  let p' := fst (mergeAll [ (plainEvent "b" 101 "c2" online, false);
                            (plainEvent "a" 102 "c3" away, false) ] p) in
  exists n n',
    getCount None 0 p = Ok n /\ getCount None 0 p' = Ok n' /\
    n <= n' <= n + 2.
Proof.
  destruct (merge_never_removes
              [ (plainEvent "b" 101 "c2" online, false);
                (plainEvent "a" 102 "c3" away, false) ] 0
              (fst (updateMembersList (plainEvent "a" 100 "c1" online) false
                                      fresh)))
    as (_ & n & n' & Hn & Hn' & Hle).
  exists n, n'. auto.
Defined.

Lemma stale_record_is_ignored_witness :
  let p := fst (updateMembersList (plainEvent "u1" 100 "c1" online) false
                                  fresh) in
  updateMembersList (plainEvent "u1" 90 "c1" away) false p = (p, []).
Proof.
  apply (stale_record_is_ignored
           (plainEvent "u1" 90 "c1" away) false
           (fst (updateMembersList (plainEvent "u1" 100 "c1" online) false
                                   fresh))
           (mkUser (plainEvent "u1" 100 "c1" online) false)).
  - repeat constructor.
  - simpl. left. reflexivity.
  - reflexivity.
  - reflexivity.
Defined.

Lemma merge_order_of_users_is_irrelevant_witness :
  fst (mergeAll [ (plainEvent "a" 100 "c1" online, false);
                  (plainEvent "b" 101 "c2" away, true) ] fresh)
  = fst (mergeAll [ (plainEvent "b" 101 "c2" away, true);
                    (plainEvent "a" 100 "c1" online, false) ] fresh).
Proof.
  apply (merge_order_of_users_is_irrelevant
           [ (plainEvent "a" 100 "c1" online, false);
             (plainEvent "b" 101 "c2" away, true) ]
           [ (plainEvent "b" 101 "c2" away, true);
             (plainEvent "a" 100 "c1" online, false) ]).
  - apply perm_swap.
  - split.
    + repeat constructor; simpl; intuition discriminate.
    + intros e1 e2 [<-|[<-|[]]] [<-|[<-|[]]] Hclass;
        (reflexivity || discriminate Hclass).
  - constructor.
Defined.

Lemma fresh_wellFormed : wellFormed fresh.
Proof.
  split; [constructor|]. split; [intros user []|reflexivity].
Qed.

Lemma calls_keep_wellFormed_witness :
  wellFormed
    (steps [ Received (plainEvent "b" 90 "c2" online);
             UpdatePresence (Some away) None "c1" 95;
             Initialize (Some "a") None None 100 "guid" "c1";
             Received (plainEvent "b" 101 "c2" online);
             Initialize None None None 102 "guid" "c1";
             UpdatePresence (Some away) None "c1" 103;
             SetExpirationPeriod (5 # 1);
             Received (plainEvent "a" 104 "c9" offline) ]
           fresh).
Proof.
  apply (calls_keep_wellFormed
           [ Received (plainEvent "b" 90 "c2" online);
             UpdatePresence (Some away) None "c1" 95;
             Initialize (Some "a") None None 100 "guid" "c1";
             Received (plainEvent "b" 101 "c2" online);
             Initialize None None None 102 "guid" "c1";
             UpdatePresence (Some away) None "c1" 103;
             SetExpirationPeriod (5 # 1);
             Received (plainEvent "a" 104 "c9" offline) ]
           fresh).
  exact fresh_wellFormed.
Defined.

Lemma local_user_stays_tracked_witness :
  let p := steps [ Initialize None None None 100 "guid" "c1" ] fresh in
  let p' := steps [ Received (plainEvent "z" 101 "c2" online);
                    UpdatePresence (Some away) None "c1" 103;
                    Received (plainEvent "guid" 104 "c9" offline) ] p in
  isInitialized p' = true /\
  userId (_currentPresence p') = "guid" /\
  exists user,
    In user (_users p') /\
    localeCompare (userIdOf user) "guid" = 0 /\
    _isLocalUser user = true.
Proof.
  apply (local_user_stays_tracked
           [ Received (plainEvent "z" 101 "c2" online);
             UpdatePresence (Some away) None "c1" 103;
             Received (plainEvent "guid" 104 "c9" offline) ]
           (steps [ Initialize None None None 100 "guid" "c1" ] fresh)).
  - apply steps_wellFormed. exact fresh_wellFormed.
  - reflexivity.
Defined.

End LivePresenceMore.
